(** * Image Copyright Assistant: the helpers and handlers of [src/index.tsx]

    A shallow embedding of the three helpers ([fileToBase64],
    [base64ToArrayBuffer], [pcmToWav]) and of the two asynchronous handlers
    of the [App] component ([analyzeImageWithAI], [handleTextToSpeech]),
    followed by the properties the specification states about them.

    Conventions.
    - A JavaScript number that holds an integer is a [Z]; a store into a
      typed array or through a [DataView] writes its wrap-around out. A
      number inside a JSON value is kept as its decimal string.
    - A byte is a [Z] in [0, 256); an [ArrayBuffer] is a [list Z].
    - A string of Latin-1 code units is a [string].
    - A call that can throw returns an [option] or a sum. *)

From Stdlib Require Import ZArith Lia Ascii String.
From stdpp Require Import base option list numbers strings pretty.

Local Open Scope Z_scope.

(** ** Byte buffers and [DataView] *)

Module DataView.

(** An [ArrayBuffer]: its bytes, each in [0, 256). *)
Definition buffer := list Z.

(** [new ArrayBuffer(n)]: [n] zero bytes. *)
Definition alloc (n : nat) : buffer := replicate n 0.

(** The [n] low bytes of [v], least significant first: what a store of
    [v] into an [8*n]-bit field leaves in memory, for a signed as for an
    unsigned field (both keep [v] modulo [2^(8*n)]). *)
Fixpoint le_bytes (n : nat) (v : Z) : list Z :=
  match n with
  | O => []
  | S n' => v `mod` 256 :: le_bytes n' (v `div` 256)
  end.

Definition field_bytes (n : nat) (v : Z) (littleEndian : bool) : list Z :=
  if littleEndian then le_bytes n v else reverse (le_bytes n v).

(** The value of a byte sequence read least significant byte first. *)
Fixpoint le_value (bs : list Z) : Z :=
  match bs with
  | [] => 0
  | b :: bs' => b + 256 * le_value bs'
  end.

(** A store of [bs] at [byteOffset]; [None] is the [RangeError] of a
    store that does not fit in the buffer. *)
Definition store (byteOffset : nat) (bs : list Z) (buf : buffer)
  : option buffer :=
  if (byteOffset + length bs <=? length buf)%nat
  then Some (take byteOffset buf ++ bs ++ drop (byteOffset + length bs) buf)
  else None.

(** A load of [n] bytes at [byteOffset]; [None] is the [RangeError]. *)
Definition load (byteOffset n : nat) (buf : buffer) : option (list Z) :=
  if (byteOffset + n <=? length buf)%nat
  then Some (take n (drop byteOffset buf))
  else None.

Definition setUint32 (byteOffset : nat) (value : Z) (littleEndian : bool)
  : buffer -> option buffer :=
  store byteOffset (field_bytes 4 value littleEndian).

Definition setUint16 (byteOffset : nat) (value : Z) (littleEndian : bool)
  : buffer -> option buffer :=
  store byteOffset (field_bytes 2 value littleEndian).

(** [setInt16] keeps [value] modulo [2^16] in two's complement: the same
    two bytes as [setUint16]. *)
Definition setInt16 (byteOffset : nat) (value : Z) (littleEndian : bool)
  : buffer -> option buffer :=
  store byteOffset (field_bytes 2 value littleEndian).

Definition read_field (byteOffset n : nat) (littleEndian : bool)
    (buf : buffer) : option Z :=
  bs ← load byteOffset n buf;
  Some (le_value (if littleEndian then bs else reverse bs)).

Definition getUint32 (byteOffset : nat) (littleEndian : bool)
  : buffer -> option Z := read_field byteOffset 4 littleEndian.

Definition getUint16 (byteOffset : nat) (littleEndian : bool)
  : buffer -> option Z := read_field byteOffset 2 littleEndian.

(** The signed reading of a 16-bit pattern. *)
Definition to_int16 (u : Z) : Z := if u <? 32768 then u else u - 65536.

Definition getInt16 (byteOffset : nat) (littleEndian : bool)
    (buf : buffer) : option Z :=
  to_int16 <$> read_field byteOffset 2 littleEndian buf.

End DataView.

(** The elements of an [Int16Array]. *)
Definition int16 (v : Z) : Prop := -32768 <= v < 32768.

Definition is_byte (b : Z) : Prop := 0 <= b < 256.

(** The code units of an ASCII literal, as bytes. *)
Definition ascii_codes (s : string) : list Z :=
  (fun c => Z.of_nat (nat_of_ascii c)) <$> list_ascii_of_string s.

(** ** [pcmToWav] (src/index.tsx, lines 29-58) *)

(** A [Blob]: its bytes and its media type. *)
Record Blob := mkBlob { blob_bytes : list Z; blob_type : string }.

(** The loop of lines 51-55: one [setInt16] a sample, [offset] advancing by
    two. *)
Fixpoint write_samples (pcmData : list Z) (offset : nat)
    (view : DataView.buffer) : option DataView.buffer :=
  match pcmData with
  | [] => Some view
  | sample :: rest =>
      view ← DataView.setInt16 offset sample true view;
      write_samples rest (offset + 2) view
  end.

Definition numChannels : Z := 1.
Definition bitsPerSample : Z := 16.

(** The stores of lines 37-49, in the order of the source. *)
Definition write_header (pcmLength : nat) (sampleRate : Z)
    (view : DataView.buffer) : option DataView.buffer :=
  let byteRate := numChannels * bitsPerSample / 8 * sampleRate in
  let blockAlign := numChannels * bitsPerSample / 8 in
  view ← DataView.setUint32 0 0x52494646 false view;
  view ← DataView.setUint32 4 (36 + Z.of_nat pcmLength * 2) true view;
  view ← DataView.setUint32 8 0x57415645 false view;
  view ← DataView.setUint32 12 0x666d7420 false view;
  view ← DataView.setUint32 16 16 true view;
  view ← DataView.setUint16 20 1 true view;
  view ← DataView.setUint16 22 numChannels true view;
  view ← DataView.setUint32 24 sampleRate true view;
  view ← DataView.setUint32 28 byteRate true view;
  view ← DataView.setUint16 32 blockAlign true view;
  view ← DataView.setUint16 34 bitsPerSample true view;
  view ← DataView.setUint32 36 0x64617461 false view;
  DataView.setUint32 40 (Z.of_nat pcmLength * 2) true view.

(** [pcmToWav pcmData sampleRate]; [None] would be an exception out of one
    of the stores. *)
Definition pcmToWav (pcmData : list Z) (sampleRate : Z) : option Blob :=
  let buffer := DataView.alloc (44 + length pcmData * 2) in
  view ← write_header (length pcmData) sampleRate buffer;
  view ← write_samples pcmData 44 view;
  Some (mkBlob view "audio/wav").

(** *** What the container must look like

    The 44 header bytes in closed form, and the layout the specification
    describes, read back through the [DataView] accessors. The 32-bit
    fields hold their value modulo [2^32]. *)

Definition wav_header (pcmLength : nat) (sampleRate : Z) : list Z :=
  ascii_codes "RIFF" ++ DataView.le_bytes 4 (36 + Z.of_nat pcmLength * 2)
  ++ ascii_codes "WAVE" ++ ascii_codes "fmt "
  ++ DataView.le_bytes 4 16 ++ DataView.le_bytes 2 1 ++ DataView.le_bytes 2 1
  ++ DataView.le_bytes 4 sampleRate ++ DataView.le_bytes 4 (2 * sampleRate)
  ++ DataView.le_bytes 2 2 ++ DataView.le_bytes 2 16
  ++ ascii_codes "data" ++ DataView.le_bytes 4 (Z.of_nat pcmLength * 2).

Definition wav_tags (bytes : list Z) : Prop :=
  take 4 bytes = ascii_codes "RIFF"
  ∧ take 4 (drop 8 bytes) = ascii_codes "WAVE"
  ∧ take 4 (drop 12 bytes) = ascii_codes "fmt "
  ∧ take 4 (drop 36 bytes) = ascii_codes "data".

Definition wav_fixed_fields (bytes : list Z) : Prop :=
  DataView.getUint32 16 true bytes = Some 16
  ∧ DataView.getUint16 20 true bytes = Some 1
  ∧ DataView.getUint16 22 true bytes = Some 1
  ∧ DataView.getUint16 32 true bytes = Some 2
  ∧ DataView.getUint16 34 true bytes = Some 16.

Definition wav_sized_fields (pcmLength : nat) (sampleRate : Z)
    (bytes : list Z) : Prop :=
  DataView.getUint32 4 true bytes
    = Some ((36 + 2 * Z.of_nat pcmLength) `mod` 2 ^ 32)
  ∧ DataView.getUint32 24 true bytes = Some (sampleRate `mod` 2 ^ 32)
  ∧ DataView.getUint32 28 true bytes = Some ((sampleRate * 2) `mod` 2 ^ 32)
  ∧ DataView.getUint32 40 true bytes
    = Some ((2 * Z.of_nat pcmLength) `mod` 2 ^ 32).

(** The same four fields without wrap-around, for the values that fit. *)
Definition wav_exact_fields (pcmLength : nat) (sampleRate : Z)
    (bytes : list Z) : Prop :=
  DataView.getUint32 4 true bytes = Some (36 + 2 * Z.of_nat pcmLength)
  ∧ DataView.getUint32 24 true bytes = Some sampleRate
  ∧ DataView.getUint32 28 true bytes = Some (sampleRate * 2)
  ∧ DataView.getUint32 40 true bytes = Some (2 * Z.of_nat pcmLength).

Definition wav_body (pcmData : list Z) (bytes : list Z) : Prop :=
  drop 44 bytes = pcmData ≫= DataView.le_bytes 2
  ∧ ∀ (i : nat) (s : Z), pcmData !! i = Some s →
      DataView.getInt16 (44 + 2 * i) true bytes = Some s.

Definition wav_layout (pcmData : list Z) (sampleRate : Z)
    (bytes : list Z) : Prop :=
  length bytes = (44 + 2 * length pcmData)%nat
  ∧ Forall is_byte bytes
  ∧ wav_tags bytes
  ∧ wav_fixed_fields bytes
  ∧ wav_sized_fields (length pcmData) sampleRate bytes
  ∧ (0 < sampleRate < 2 ^ 31 → 36 + 2 * Z.of_nat (length pcmData) < 2 ^ 32 →
     wav_exact_fields (length pcmData) sampleRate bytes)
  ∧ wav_body pcmData bytes.

(** ** Base64: the platform's encoder and decoder

    [FileReader.readAsDataURL] encodes with the base64 of RFC 4648 (with
    padding); [atob] decodes with the forgiving-base64 decoder of the HTML
    standard. Both are platform functions; they are written out here
    after their standards. *)

Module Base64.

Definition alphabet : list ascii :=
  list_ascii_of_string
    "ABCDEFGHIJKLMNOPQRSTUVWXYZabcdefghijklmnopqrstuvwxyz0123456789+/".

(** The character of a 6-bit digit. *)
Definition digit_char (d : Z) : ascii :=
  default "A"%char (alphabet !! Z.to_nat d).

Fixpoint index_of (c : ascii) (l : list ascii) : option Z :=
  match l with
  | [] => None
  | c' :: l' => if Ascii.eqb c c' then Some 0 else Z.succ <$> index_of c l'
  end.

(** The 6-bit digit of a character of the alphabet. *)
Definition char_digit (c : ascii) : option Z := index_of c alphabet.

(** Three bytes give four 6-bit digits; a last group of one or two bytes
    gives two or three, its missing low bits zero. *)
Fixpoint sextets (bs : list Z) : list Z :=
  match bs with
  | a :: b :: c :: rest =>
      a `div` 4 :: (a `mod` 4) * 16 + b `div` 16
      :: (b `mod` 16) * 4 + c `div` 64 :: c `mod` 64 :: sextets rest
  | [a; b] => [a `div` 4; (a `mod` 4) * 16 + b `div` 16; (b `mod` 16) * 4]
  | [a] => [a `div` 4; (a `mod` 4) * 16]
  | [] => []
  end.

Definition padding (byteLength : nat) : list ascii :=
  match (byteLength `mod` 3)%nat with
  | 1%nat => ["="; "="]%char
  | 2%nat => ["="]%char
  | _ => []
  end.

Definition encode (bs : list Z) : string :=
  string_of_list_ascii ((digit_char <$> sextets bs) ++ padding (length bs)).

(** ASCII whitespace: TAB, LF, FF, CR, SPACE. *)
Definition is_whitespace (c : ascii) : bool :=
  let n := nat_of_ascii c in
  (n =? 9)%nat || (n =? 10)%nat || (n =? 12)%nat || (n =? 13)%nat
  || (n =? 32)%nat.

(** The data without its last character, when that is [=]. *)
Definition drop_last_eq (data : list ascii) : option (list ascii) :=
  match reverse data with
  | c :: r => if Ascii.eqb c "=" then Some (reverse r) else None
  | [] => None
  end.

(** When the length is a multiple of four, one or two trailing [=] are
    removed. *)
Definition strip_padding (data : list ascii) : list ascii :=
  if (length data `mod` 4 =? 0)%nat then
    match drop_last_eq data with
    | Some data1 => default data1 (drop_last_eq data1)
    | None => data
    end
  else data.

Fixpoint digits (data : list ascii) : option (list Z) :=
  match data with
  | [] => Some []
  | c :: data' =>
      d ← char_digit c; ds ← digits data'; Some (d :: ds)
  end.

(** Four digits give three bytes; a last group of three or two digits
    gives two or one, its low bits dropped. *)
Fixpoint octets (ds : list Z) : list Z :=
  match ds with
  | a :: b :: c :: d :: rest =>
      a * 4 + b `div` 16 :: (b `mod` 16) * 16 + c `div` 4
      :: (c `mod` 4) * 64 + d :: octets rest
  | [a; b; c] => [a * 4 + b `div` 16; (b `mod` 16) * 16 + c `div` 4]
  | [a; b] => [a * 4 + b `div` 16]
  | _ => []
  end.

(** Forgiving-base64 decode; [None] is the failure. *)
Definition decode (data : string) : option (list Z) :=
  let data := List.filter (fun c => negb (is_whitespace c))
                (list_ascii_of_string data) in
  let data := strip_padding data in
  if (length data `mod` 4 =? 1)%nat then None
  else octets <$> digits data.

(** The 6-bit digits, and the check of one character of the alphabet:
    it decodes to its digit and is neither whitespace, [=] nor a comma. *)
Definition is_digit (d : Z) : Prop := 0 <= d < 64.

Definition digit_ok (k : nat) : bool :=
  let c := digit_char (Z.of_nat k) in
  match char_digit c with
  | Some d => (d =? Z.of_nat k) && negb (is_whitespace c)
              && negb (Ascii.eqb c "=") && negb (Ascii.eqb c ",")
  | None => false
  end.

End Base64.

(** The code unit of a character, and the character of a byte. *)
Definition char_code (c : ascii) : Z := Z.of_nat (nat_of_ascii c).
Definition code_char (b : Z) : ascii := ascii_of_nat (Z.to_nat b).

(** [atob]: the decoded bytes as a binary string, one code unit a byte;
    [None] is the [InvalidCharacterError] it throws. *)
Definition atob (data : string) : option string :=
  bs ← Base64.decode data;
  Some (string_of_list_ascii (code_char <$> bs)).

(** [s.charCodeAt(i)]: [None] is the NaN of an index out of range. *)
Definition charCodeAt (s : string) (i : nat) : option Z :=
  char_code <$> String.get i s.

(** The conversion of a store into a [Uint8Array]: modulo 256, NaN to 0. *)
Definition ToUint8 (v : option Z) : Z :=
  match v with Some n => n `mod` 256 | None => 0 end.

(** ** [base64ToArrayBuffer] (src/index.tsx, lines 18-26)

    [None] is the exception of [atob]. *)
Definition base64ToArrayBuffer (base64 : string) : option (list Z) :=
  binaryString ← atob base64;
  let len := String.length binaryString in
  let bytes := replicate len 0 in
  Some (foldl (fun bytes i => <[i := ToUint8 (charCodeAt binaryString i)]> bytes)
          bytes (seq 0 len)).

(** ** [fileToBase64] (src/index.tsx, lines 8-15) *)

(** A [File]: its media type and its bytes. *)
Record File := mkFile { file_type : string; file_bytes : list Z }.

(** What `${e.message}` shows of a thrown or rejected value. *)
Record thrown := Thrown { message : string }.

(** A settled promise. *)
Inductive settled (A : Type) : Type :=
  | Fulfilled (a : A)
  | Rejected (e : thrown).
Arguments Fulfilled {A} a.
Arguments Rejected {A} e.

(** [reader.result] after [readAsDataURL]: a [data:] URL of the bytes. *)
Definition readAsDataURL (file : File) : string :=
  "data:" +:+ file_type file +:+ ";base64," +:+ Base64.encode (file_bytes file).

(** [s.split(sep)] for a one-character separator. *)
Fixpoint split (sep : ascii) (s : string) : list string :=
  match s with
  | EmptyString => [EmptyString]
  | String c s' =>
      if Ascii.eqb c sep then EmptyString :: split sep s'
      else match split sep s' with
           | piece :: pieces => String c piece :: pieces
           | [] => [String c EmptyString]
           end
  end.

(** The outcome of the read: [onload], or [onerror] with its event. *)
Inductive read_outcome := ReadLoads | ReadFails (error : thrown).

(** The promise of [fileToBase64]; a fulfilled [None] is [undefined], the
    element [1] of a split with no second piece. *)
Definition fileToBase64 (file : File) (o : read_outcome)
    : settled (option string) :=
  match o with
  | ReadLoads => Fulfilled (split "," (readAsDataURL file) !! 1%nat)
  | ReadFails error => Rejected error
  end.

(** A string without the character [c]. *)
Definition lacks (c : ascii) (s : string) : Prop :=
  c ∉ list_ascii_of_string s.

(** ** JavaScript values

    What [JSON.parse] and [response.json()] return, and what the state
    hooks hold. A number is given by its canonical decimal string, the one
    [String(n)] returns ("0" for both zeros). *)

#[local] Set Warnings "-register-all".

Inductive js_value : Type :=
  | JUndefined
  | JNull
  | JBool (b : bool)
  | JNum (repr : string)
  | JStr (s : string)
  | JArr (items : list js_value)
  | JObj (props : list (string * js_value)).

(** Truthiness: [undefined], [null], [false], zero, NaN and the empty
    string are falsy. *)
Definition truthy (v : js_value) : bool :=
  match v with
  | JUndefined | JNull => false
  | JBool b => b
  | JNum repr => negb (String.eqb repr "0" || String.eqb repr "NaN")
  | JStr s => negb (String.eqb s "")
  | JArr _ | JObj _ => true
  end.

(** [v === 'pass'] and the like. *)
Definition strict_eq_string (v : js_value) (s : string) : bool :=
  match v with JStr s' => String.eqb s' s | _ => false end.

(** The own property [name] of an object. *)
Fixpoint own_property (name : string) (props : list (string * js_value))
    : js_value :=
  match props with
  | [] => JUndefined
  | (k, v) :: props' => if String.eqb k name then v else own_property name props'
  end.

(** The message of the [TypeError] of a property read on [null] or
    [undefined] (the text is the engine's; V8's is used). *)
Definition null_read_error (v : js_value) (name : string) : thrown :=
  Thrown ("Cannot read properties of "
          +:+ (match v with JNull => "null" | _ => "undefined" end)
          +:+ " (reading '" +:+ name +:+ "')").

(** [v.name], for the property names this program reads: none of them is
    a property of the prototype of a string, number, boolean or array, so
    only an object can answer with something else than [undefined]. *)
Definition get_property (v : js_value) (name : string) : thrown + js_value :=
  match v with
  | JUndefined | JNull => inl (null_read_error v name)
  | JObj props => inr (own_property name props)
  | _ => inr JUndefined
  end.

(** [v?.name]. *)
Definition get_optional (v : js_value) (name : string) : js_value :=
  match v with
  | JObj props => own_property name props
  | _ => JUndefined
  end.

(** [v?.[0]]: the first element of an array, the first character of a
    string, the property "0" of an object. *)
Definition get_optional_0 (v : js_value) : js_value :=
  match v with
  | JArr items => default JUndefined (items !! 0%nat)
  | JStr (String c _) => JStr (String c EmptyString)
  | JObj props => own_property "0" props
  | _ => JUndefined
  end.

(** [String(v)], as [atob] applies it to its argument. The elements of an
    array are joined with commas, [null] and [undefined] as empty. *)
Fixpoint ToString (v : js_value) : string :=
  match v with
  | JUndefined => "undefined"
  | JNull => "null"
  | JBool true => "true"
  | JBool false => "false"
  | JNum repr => repr
  | JStr s => s
  | JArr items =>
      let element x :=
        match x with JUndefined | JNull => "" | _ => ToString x end in
      (fix join (l : list js_value) : string :=
         match l with
         | [] => ""
         | [x] => element x
         | x :: l' => element x +:+ "," +:+ join l'
         end) items
  | JObj _ => "[object Object]"
  end.

(** ** The state of the [App] component (src/index.tsx, lines 62-80)

    One field a [useState] hook. A status or a description holds whatever
    value the reply gave it: the cast [as Status] checks nothing at run
    time. *)

Record AppState := mkAppState {
  imageFile : option File;
  imageUrl : option string;
  copyrightStatus : js_value;
  copyrightDescription : js_value;
  zedgeViolationStatus : js_value;
  zedgeViolationDescription : js_value;
  womenPolicyStatus : js_value;
  womenPolicyDescription : js_value;
  kidsViolationStatus : js_value;
  kidsViolationDescription : js_value;
  title : js_value;
  imageDescription : js_value;
  tags : js_value;
  loading : bool;
  error : option string;
  isSpeaking : bool;
  isModalOpen : bool;
  modalContent : string
}.

Definition initialState : AppState :=
  mkAppState None None JNull JNull JNull JNull JNull JNull JNull JNull
    JNull JNull (JArr []) false None false false "".

(** The setters of the hooks. *)
Definition setImageFile (v : option File) (st : AppState) : AppState :=
  mkAppState v (imageUrl st) (copyrightStatus st) (copyrightDescription st)
    (zedgeViolationStatus st) (zedgeViolationDescription st)
    (womenPolicyStatus st) (womenPolicyDescription st)
    (kidsViolationStatus st) (kidsViolationDescription st) (title st)
    (imageDescription st) (tags st) (loading st) (error st) (isSpeaking st)
    (isModalOpen st) (modalContent st).

Definition setImageUrl (v : option string) (st : AppState) : AppState :=
  mkAppState (imageFile st) v (copyrightStatus st) (copyrightDescription st)
    (zedgeViolationStatus st) (zedgeViolationDescription st)
    (womenPolicyStatus st) (womenPolicyDescription st)
    (kidsViolationStatus st) (kidsViolationDescription st) (title st)
    (imageDescription st) (tags st) (loading st) (error st) (isSpeaking st)
    (isModalOpen st) (modalContent st).

Definition setCopyrightStatus (v : js_value) (st : AppState) : AppState :=
  mkAppState (imageFile st) (imageUrl st) v (copyrightDescription st)
    (zedgeViolationStatus st) (zedgeViolationDescription st)
    (womenPolicyStatus st) (womenPolicyDescription st)
    (kidsViolationStatus st) (kidsViolationDescription st) (title st)
    (imageDescription st) (tags st) (loading st) (error st) (isSpeaking st)
    (isModalOpen st) (modalContent st).

Definition setCopyrightDescription (v : js_value) (st : AppState) : AppState :=
  mkAppState (imageFile st) (imageUrl st) (copyrightStatus st) v
    (zedgeViolationStatus st) (zedgeViolationDescription st)
    (womenPolicyStatus st) (womenPolicyDescription st)
    (kidsViolationStatus st) (kidsViolationDescription st) (title st)
    (imageDescription st) (tags st) (loading st) (error st) (isSpeaking st)
    (isModalOpen st) (modalContent st).

Definition setZedgeViolationStatus (v : js_value) (st : AppState) : AppState :=
  mkAppState (imageFile st) (imageUrl st) (copyrightStatus st)
    (copyrightDescription st) v (zedgeViolationDescription st)
    (womenPolicyStatus st) (womenPolicyDescription st)
    (kidsViolationStatus st) (kidsViolationDescription st) (title st)
    (imageDescription st) (tags st) (loading st) (error st) (isSpeaking st)
    (isModalOpen st) (modalContent st).

Definition setZedgeViolationDescription (v : js_value) (st : AppState) : AppState :=
  mkAppState (imageFile st) (imageUrl st) (copyrightStatus st)
    (copyrightDescription st) (zedgeViolationStatus st) v
    (womenPolicyStatus st) (womenPolicyDescription st)
    (kidsViolationStatus st) (kidsViolationDescription st) (title st)
    (imageDescription st) (tags st) (loading st) (error st) (isSpeaking st)
    (isModalOpen st) (modalContent st).

Definition setWomenPolicyStatus (v : js_value) (st : AppState) : AppState :=
  mkAppState (imageFile st) (imageUrl st) (copyrightStatus st)
    (copyrightDescription st) (zedgeViolationStatus st)
    (zedgeViolationDescription st) v (womenPolicyDescription st)
    (kidsViolationStatus st) (kidsViolationDescription st) (title st)
    (imageDescription st) (tags st) (loading st) (error st) (isSpeaking st)
    (isModalOpen st) (modalContent st).

Definition setWomenPolicyDescription (v : js_value) (st : AppState) : AppState :=
  mkAppState (imageFile st) (imageUrl st) (copyrightStatus st)
    (copyrightDescription st) (zedgeViolationStatus st)
    (zedgeViolationDescription st) (womenPolicyStatus st) v
    (kidsViolationStatus st) (kidsViolationDescription st) (title st)
    (imageDescription st) (tags st) (loading st) (error st) (isSpeaking st)
    (isModalOpen st) (modalContent st).

Definition setKidsViolationStatus (v : js_value) (st : AppState) : AppState :=
  mkAppState (imageFile st) (imageUrl st) (copyrightStatus st)
    (copyrightDescription st) (zedgeViolationStatus st)
    (zedgeViolationDescription st) (womenPolicyStatus st)
    (womenPolicyDescription st) v (kidsViolationDescription st) (title st)
    (imageDescription st) (tags st) (loading st) (error st) (isSpeaking st)
    (isModalOpen st) (modalContent st).

Definition setKidsViolationDescription (v : js_value) (st : AppState) : AppState :=
  mkAppState (imageFile st) (imageUrl st) (copyrightStatus st)
    (copyrightDescription st) (zedgeViolationStatus st)
    (zedgeViolationDescription st) (womenPolicyStatus st)
    (womenPolicyDescription st) (kidsViolationStatus st) v (title st)
    (imageDescription st) (tags st) (loading st) (error st) (isSpeaking st)
    (isModalOpen st) (modalContent st).

Definition setTitle (v : js_value) (st : AppState) : AppState :=
  mkAppState (imageFile st) (imageUrl st) (copyrightStatus st)
    (copyrightDescription st) (zedgeViolationStatus st)
    (zedgeViolationDescription st) (womenPolicyStatus st)
    (womenPolicyDescription st) (kidsViolationStatus st)
    (kidsViolationDescription st) v (imageDescription st) (tags st)
    (loading st) (error st) (isSpeaking st) (isModalOpen st)
    (modalContent st).

Definition setImageDescription (v : js_value) (st : AppState) : AppState :=
  mkAppState (imageFile st) (imageUrl st) (copyrightStatus st)
    (copyrightDescription st) (zedgeViolationStatus st)
    (zedgeViolationDescription st) (womenPolicyStatus st)
    (womenPolicyDescription st) (kidsViolationStatus st)
    (kidsViolationDescription st) (title st) v (tags st) (loading st)
    (error st) (isSpeaking st) (isModalOpen st) (modalContent st).

Definition setTags (v : js_value) (st : AppState) : AppState :=
  mkAppState (imageFile st) (imageUrl st) (copyrightStatus st)
    (copyrightDescription st) (zedgeViolationStatus st)
    (zedgeViolationDescription st) (womenPolicyStatus st)
    (womenPolicyDescription st) (kidsViolationStatus st)
    (kidsViolationDescription st) (title st) (imageDescription st) v
    (loading st) (error st) (isSpeaking st) (isModalOpen st)
    (modalContent st).

Definition setLoading (v : bool) (st : AppState) : AppState :=
  mkAppState (imageFile st) (imageUrl st) (copyrightStatus st)
    (copyrightDescription st) (zedgeViolationStatus st)
    (zedgeViolationDescription st) (womenPolicyStatus st)
    (womenPolicyDescription st) (kidsViolationStatus st)
    (kidsViolationDescription st) (title st) (imageDescription st) (tags st)
    v (error st) (isSpeaking st) (isModalOpen st) (modalContent st).

Definition setError (v : option string) (st : AppState) : AppState :=
  mkAppState (imageFile st) (imageUrl st) (copyrightStatus st)
    (copyrightDescription st) (zedgeViolationStatus st)
    (zedgeViolationDescription st) (womenPolicyStatus st)
    (womenPolicyDescription st) (kidsViolationStatus st)
    (kidsViolationDescription st) (title st) (imageDescription st) (tags st)
    (loading st) v (isSpeaking st) (isModalOpen st) (modalContent st).

Definition setIsSpeaking (v : bool) (st : AppState) : AppState :=
  mkAppState (imageFile st) (imageUrl st) (copyrightStatus st)
    (copyrightDescription st) (zedgeViolationStatus st)
    (zedgeViolationDescription st) (womenPolicyStatus st)
    (womenPolicyDescription st) (kidsViolationStatus st)
    (kidsViolationDescription st) (title st) (imageDescription st) (tags st)
    (loading st) (error st) v (isModalOpen st) (modalContent st).

Definition setIsModalOpen (v : bool) (st : AppState) : AppState :=
  mkAppState (imageFile st) (imageUrl st) (copyrightStatus st)
    (copyrightDescription st) (zedgeViolationStatus st)
    (zedgeViolationDescription st) (womenPolicyStatus st)
    (womenPolicyDescription st) (kidsViolationStatus st)
    (kidsViolationDescription st) (title st) (imageDescription st) (tags st)
    (loading st) (error st) (isSpeaking st) v (modalContent st).

Definition setModalContent (v : string) (st : AppState) : AppState :=
  mkAppState (imageFile st) (imageUrl st) (copyrightStatus st)
    (copyrightDescription st) (zedgeViolationStatus st)
    (zedgeViolationDescription st) (womenPolicyStatus st)
    (womenPolicyDescription st) (kidsViolationStatus st)
    (kidsViolationDescription st) (title st) (imageDescription st) (tags st)
    (loading st) (error st) (isSpeaking st) (isModalOpen st) v.


(** What a handler does to the world outside the component. *)
Inductive effect : Type :=
  | CreateObjectURL (bytes : list Z) (url : string)
  | RevokeObjectURL (url : string)
  | ReadAsDataURL (file : File)
  | GenerateContent (data : option string) (mimeType : string)
  | Fetch (url : string) (text : string)
  | Play (url : string).

(** *** Modal and reset (lines 82-105) *)

Definition showModal (message : string) (st : AppState) : AppState :=
  let st := setModalContent message st in
  setIsModalOpen true st.

Definition closeModal (st : AppState) : AppState :=
  let st := setIsModalOpen false st in
  setModalContent "" st.

Definition resetState (st : AppState) : AppState :=
  let st := setCopyrightStatus JNull st in
  let st := setCopyrightDescription JNull st in
  let st := setZedgeViolationStatus JNull st in
  let st := setZedgeViolationDescription JNull st in
  let st := setWomenPolicyStatus JNull st in
  let st := setWomenPolicyDescription JNull st in
  let st := setKidsViolationStatus JNull st in
  let st := setKidsViolationDescription JNull st in
  let st := setTitle JNull st in
  let st := setImageDescription JNull st in
  let st := setTags (JArr []) st in
  setError None st.

(** *** File selection and clearing (lines 107-143)

    [url] is the URL the platform mints for the file. *)

Definition handleFileSelect (file : option File) (url : string)
    (st : AppState) : AppState * list effect :=
  match file with
  | Some f =>
      if String.prefix "image/" (file_type f) then
        let st := resetState st in
        let st := setImageFile (Some f) st in
        (setImageUrl (Some url) st, [CreateObjectURL (file_bytes f) url])
      else (st, [])
  | None => (st, [])
  end.

Definition handleClear (st : AppState) : AppState * list effect :=
  let revoked :=
    match imageUrl st, imageFile st with
    | Some url, Some _ => if negb (String.eqb url "") then [RevokeObjectURL url] else []
    | _, _ => []
    end in
  let st := setImageFile None st in
  let st := setImageUrl None st in
  (resetState st, revoked).

(** ** [analyzeImageWithAI] (lines 153-263) *)

(** What [JSON.parse(response.text)] does: it throws a [SyntaxError], on
    a text that is not JSON (an absent text among them), or returns the
    value the text denotes. *)
Inductive parse_result : Type :=
  | ParseThrows (e : thrown)
  | Parsed (parsedJson : js_value).

(** The statements of a [try] block over the state: they leave a state and
    either a value or the exception that ended them. *)
Definition try_block (A : Type) : Type := AppState → AppState * (thrown + A).

Global Instance try_ret : MRet try_block := λ A a st, (st, inr a).
Global Instance try_bind : MBind try_block := λ A B k c st,
  match c st with
  | (st', inr a) => k a st'
  | (st', inl e) => (st', inl e)
  end.

(** A call of a setter. *)
Definition update (f : AppState → AppState) : try_block unit :=
  λ st, (f st, inr ()).

(** A property read, which throws on [null] and [undefined]. *)
Definition read (v : js_value) (name : string) : try_block js_value :=
  λ st, (st, get_property v name).

(** [parsedJson.name === 'pass']. *)
Definition is_pass (parsedJson : js_value) (name : string) : try_block bool :=
  v ← read parsedJson name; mret (strict_eq_string v "pass").

(** [a && b] on conditions: [b] is evaluated only when [a] holds. *)
Definition and_then (a b : try_block bool) : try_block bool :=
  x ← a; if x : bool then b else mret false.

(** Lines 242-255: the reply stored into the state. *)
Definition store_reply (parsedJson : js_value) : try_block unit :=
  v ← read parsedJson "status"; update (setCopyrightStatus v);;
  v ← read parsedJson "copyrightDescription";
  update (setCopyrightDescription v);;
  v ← read parsedJson "zedgeViolationStatus";
  update (setZedgeViolationStatus v);;
  v ← read parsedJson "zedgeViolationDescription";
  update (setZedgeViolationDescription v);;
  v ← read parsedJson "womenPolicyStatus"; update (setWomenPolicyStatus v);;
  v ← read parsedJson "womenPolicyDescription";
  update (setWomenPolicyDescription v);;
  v ← read parsedJson "kidsViolationStatus";
  update (setKidsViolationStatus v);;
  v ← read parsedJson "kidsViolationDescription";
  update (setKidsViolationDescription v);;
  allPass ← and_then (is_pass parsedJson "status")
              (and_then (is_pass parsedJson "zedgeViolationStatus")
                 (and_then (is_pass parsedJson "womenPolicyStatus")
                    (is_pass parsedJson "kidsViolationStatus")));
  if allPass : bool then
    v ← read parsedJson "title"; update (setTitle v);;
    v ← read parsedJson "imageDescription"; update (setImageDescription v);;
    v ← read parsedJson "tags";
    update (setTags (if truthy v then v else JArr []))
  else mret ().

(** The [catch] block (lines 257-259) and the [finally] block (line 261). *)
Definition analysis_error (e : thrown) : string :=
  "An error occurred during AI analysis: " +:+ message e.

Definition analysis_catch (e : thrown) (st : AppState) : AppState :=
  let st := setError (Some (analysis_error e)) st in
  showModal (analysis_error e) st.

Definition analysis_finally (st : AppState) : AppState := setLoading false st.

(** A run waits twice: for the read of the file, then for the reply. *)
Inductive analysis_phase : Type :=
  | Reading (file : File)
  | Requesting.

(** Lines 154-163, up to the first [await]. *)
Definition analyze_begin (st : AppState)
    : AppState * list effect * option analysis_phase :=
  match imageFile st with
  | None => (showModal "Please upload an image first." st, [], None)
  | Some file =>
      let st := setLoading true st in
      let st := resetState st in
      (st, [ReadAsDataURL file], Some (Reading file))
  end.

(** Lines 163-237: the read settles; the request goes out. A client that
    cannot be built counts as a request that is rejected. *)
Definition analyze_read_settled (file : File) (r : settled (option string))
    (st : AppState) : AppState * list effect * option analysis_phase :=
  match r with
  | Fulfilled base64Data =>
      (st, [GenerateContent base64Data (file_type file)], Some Requesting)
  | Rejected e => (analysis_finally (analysis_catch e st), [], None)
  end.

(** Lines 239-262: the reply settles. *)
Definition analyze_reply_settled (r : settled parse_result) (st : AppState)
    : AppState :=
  let '(st, thrown) :=
    match r with
    | Rejected e => (st, inl e)
    | Fulfilled (ParseThrows e) => (st, inl e)
    | Fulfilled (Parsed parsedJson) => store_reply parsedJson st
    end in
  let st := match thrown with inl e => analysis_catch e st | inr _ => st end in
  analysis_finally st.

(** What the two awaited operations of one run answer. *)
Record analysis_exchange := mkExchange {
  read_result : read_outcome;
  reply_result : settled parse_result
}.

(** One whole run of [analyzeImageWithAI], nothing else happening in
    between: the final state and the effects, in order. *)
Definition analyzeImageWithAI (x : analysis_exchange) (st : AppState)
    : AppState * list effect :=
  match analyze_begin st with
  | (st, fx, Some (Reading file)) =>
      match analyze_read_settled file (fileToBase64 file (read_result x)) st with
      | (st, fx', Some _) => (analyze_reply_settled (reply_result x) st, fx ++ fx')
      | (st, fx', None) => (st, fx ++ fx')
      end
  | (st, fx, _) => (st, fx)
  end.

(** The button of lines 392-398 is disabled while [loading || !imageFile]:
    a click on it reaches the handler only otherwise. *)
Definition analyze_disabled (st : AppState) : bool :=
  loading st || negb (bool_decide (is_Some (imageFile st))).

Definition click_analyze (st : AppState)
    : AppState * list effect * option analysis_phase :=
  if analyze_disabled st then (st, [], None) else analyze_begin st.

(** ** [handleTextToSpeech] (lines 265-337) *)

(** The first match of [/rate=(\d+)/]: its captured digits. *)
Definition is_decimal_digit (c : ascii) : bool :=
  let n := nat_of_ascii c in (48 <=? n)%nat && (n <=? 57)%nat.

Fixpoint leading_digits (s : string) : string :=
  match s with
  | String c s' =>
      if is_decimal_digit c then String c (leading_digits s') else EmptyString
  | EmptyString => EmptyString
  end.

Fixpoint drop_string (n : nat) (s : string) : string :=
  match n, s with
  | S n', String _ s' => drop_string n' s'
  | _, _ => s
  end.

Fixpoint match_rate (s : string) : option string :=
  match s with
  | EmptyString => None
  | String _ s' =>
      let digits :=
        if String.prefix "rate=" s then leading_digits (drop_string 5 s)
        else EmptyString in
      match digits with
      | EmptyString => match_rate s'
      | _ => Some digits
      end
  end.

(** [parseInt(digits, 10)] on a string of decimal digits: the integer
    they write (the double of the source is that integer below [2^53]). *)
Definition parseInt (digits : string) : Z :=
  foldl (λ n c, 10 * n + (char_code c - 48)) 0 (list_ascii_of_string digits).

(** [new Int16Array(buffer)]: a [RangeError] when the byte length is odd,
    else the 16-bit elements, read little-endian. (The message is the
    engine's; V8's is used.) *)
Fixpoint int16_elements (bytes : list Z) : list Z :=
  match bytes with
  | lo :: hi :: rest => DataView.to_int16 (lo + 256 * hi) :: int16_elements rest
  | _ => []
  end.

Definition Int16Array (buffer : list Z) : thrown + list Z :=
  if Nat.even (length buffer) then inr (int16_elements buffer)
  else inl (Thrown "byte length of Int16Array should be a multiple of 2").

(** Lines 307-318: from the reply to the WAV container. [inl] is the
    exception that leaves the [try] block. *)
Definition result_part (result : js_value) : js_value :=
  get_optional_0
    (get_optional (get_optional (get_optional_0 (get_optional result "candidates"))
                     "content") "parts").

Definition no_audio_error : thrown :=
  Thrown "Failed to get audio data from the model.".

Definition build_audio (result : js_value) : thrown + Blob :=
  let part := result_part result in
  let audioData := get_optional (get_optional part "inlineData") "data" in
  let mimeType := get_optional (get_optional part "inlineData") "mimeType" in
  if truthy audioData then
    match mimeType with
    | JUndefined | JNull => inl no_audio_error
    | JStr mimeType =>
        if String.prefix "audio/" mimeType then
          match match_rate mimeType with
          | None => inl (Thrown "Sample rate not found in MIME type")
          | Some digits =>
              let sampleRate := parseInt digits in
              match base64ToArrayBuffer (ToString audioData) with
              | None =>
                  inl (Thrown "Failed to execute 'atob' on 'Window': The string to be decoded is not correctly encoded.")
              | Some pcmData =>
                  match Int16Array pcmData with
                  | inl e => inl e
                  | inr pcm16 =>
                      match pcmToWav pcm16 sampleRate with
                      | Some wavBlob => inr wavBlob
                      | None =>
                          inl (Thrown "Offset is outside the bounds of the DataView")
                      end
                  end
              end
          end
        else inl no_audio_error
    | _ => inl (Thrown "mimeType?.startsWith is not a function")
    end
  else inl no_audio_error.

(** The [catch] block (lines 333-336). *)
Definition speech_error (e : thrown) : string :=
  "An error occurred during TTS generation: " +:+ message e.

Definition speech_catch (e : thrown) (st : AppState) : AppState :=
  let st := showModal (speech_error e) st in
  setIsSpeaking false st.

(** A run waits for the reply to [fetch], then for its body, then for the
    playback. *)
Inductive speech_phase : Type :=
  | AwaitFetch
  | AwaitErrorText (status : nat)
  | AwaitJson
  | Playing (audioUrl : string).

Record response := mkResponse { ok : bool; status : nat }.

Definition apiUrl (apiKey : string) : string :=
  "https://generativelanguage.googleapis.com/v1beta/models/gemini-2.5-flash-preview-tts:generateContent?key="
  +:+ apiKey.

(** Lines 266-299, up to the first [await]. [apiKey] is
    [process.env.API_KEY]. *)
Definition speak_begin (apiKey : option string) (text : js_value)
    (st : AppState) : AppState * list effect * option speech_phase :=
  if negb (truthy text) || isSpeaking st then (st, [], None)
  else
    let st := setIsSpeaking true st in
    match apiKey with
    | Some key =>
        if String.eqb key "" then
          let st := showModal "API key is not configured." st in
          (setIsSpeaking false st, [], None)
        else
          (st, [Fetch (apiUrl key) ("Say cheerfully: " +:+ ToString text)],
           Some AwaitFetch)
    | None =>
        let st := showModal "API key is not configured." st in
        (setIsSpeaking false st, [], None)
    end.

(** Lines 295-306: [fetch] settles. *)
Definition speak_fetch_settled (r : settled response) (st : AppState)
    : AppState * list effect * option speech_phase :=
  match r with
  | Rejected e => (speech_catch e st, [], None)
  | Fulfilled resp =>
      if ok resp then (st, [], Some AwaitJson)
      else (st, [], Some (AwaitErrorText (status resp)))
  end.

(** Lines 302-303: the body of a reply that is not [ok]. *)
Definition speak_error_text_settled (status : nat) (r : settled string)
    (st : AppState) : AppState * list effect * option speech_phase :=
  match r with
  | Rejected e => (speech_catch e st, [], None)
  | Fulfilled errorText =>
      let e := Thrown ("API call failed with status: " +:+ pretty status
                       +:+ ". Response: " +:+ errorText) in
      (speech_catch e st, [], None)
  end.

(** Lines 306-332: the body of an [ok] reply; [audioUrl] is the URL the
    platform mints for the container. *)
Definition speak_json_settled (audioUrl : string) (r : settled js_value)
    (st : AppState) : AppState * list effect * option speech_phase :=
  match r with
  | Rejected e => (speech_catch e st, [], None)
  | Fulfilled result =>
      match build_audio result with
      | inl e => (speech_catch e st, [], None)
      | inr wavBlob =>
          (st, [CreateObjectURL (blob_bytes wavBlob) audioUrl; Play audioUrl],
           Some (Playing audioUrl))
      end
  end.

(** Lines 322-324: the promise of [audio.play()] is rejected. *)
Definition speak_play_rejected (e : thrown) (st : AppState)
    : AppState * list effect * option speech_phase :=
  (showModal ("Failed to play audio: " +:+ message e) st, [], None).

(** Lines 326-329: the [ended] event. *)
Definition speak_ended (audioUrl : string) (st : AppState)
    : AppState * list effect * option speech_phase :=
  (setIsSpeaking false st, [RevokeObjectURL audioUrl], None).

(** How a playback that was started goes on. *)
Inductive playback : Type :=
  | PlayRejected (e : thrown)
  | PlayedToEnd
  | StillPlaying.

(** What the awaited operations of one run answer. *)
Record speech_exchange := mkSpeech {
  fetch_result : settled response;
  error_text_result : settled string;
  json_result : settled js_value;
  minted_url : string;
  playback_result : playback
}.

Definition speak_step (x : speech_exchange) (p : speech_phase)
    (st : AppState) : AppState * list effect * option speech_phase :=
  match p with
  | AwaitFetch => speak_fetch_settled (fetch_result x) st
  | AwaitErrorText status =>
      speak_error_text_settled status (error_text_result x) st
  | AwaitJson => speak_json_settled (minted_url x) (json_result x) st
  | Playing audioUrl =>
      match playback_result x with
      | PlayRejected e => speak_play_rejected e st
      | PlayedToEnd => speak_ended audioUrl st
      | StillPlaying => (st, [], None)
      end
  end.

(** The steps of a run until nothing is awaited any more. A run has at
    most four. *)
Fixpoint speak_steps (fuel : nat) (x : speech_exchange)
    (r : AppState * list effect * option speech_phase)
    : AppState * list effect :=
  match r with
  | (st, fx, None) => (st, fx)
  | (st, fx, Some p) =>
      match fuel with
      | O => (st, fx)
      | S fuel' =>
          let '(st', fx', p') := speak_step x p st in
          speak_steps fuel' x (st', fx ++ fx', p')
      end
  end.

(** One whole run of [handleTextToSpeech], nothing else happening in
    between: the final state and the effects, in order. *)
Definition handleTextToSpeech (apiKey : option string) (x : speech_exchange)
    (text : js_value) (st : AppState) : AppState * list effect :=
  speak_steps 4 x (speak_begin apiKey text st).

(** ** The component as an event loop

    The handlers run on one thread, each up to its next [await]; what is
    awaited settles later, as an event of its own, and other events can
    come in between. A world is the state of the hooks, the runs that wait
    and the effects so far. *)

Record world := mkWorld {
  app : AppState;
  analyses : list analysis_phase;
  speeches : list speech_phase;
  effects : list effect
}.

Definition initialWorld : world := mkWorld initialState [] [] [].

(** The metadata card of lines 402-433, with its two speech buttons, is
    rendered when the four statuses are 'pass' and the title is truthy;
    the buttons are disabled while [isSpeaking]. *)
Definition metadata_visible (st : AppState) : bool :=
  strict_eq_string (copyrightStatus st) "pass"
  && strict_eq_string (zedgeViolationStatus st) "pass"
  && strict_eq_string (womenPolicyStatus st) "pass"
  && strict_eq_string (kidsViolationStatus st) "pass"
  && truthy (title st).

Inductive speech_button := SpeakTitle | SpeakDescription.

Definition click_speak (apiKey : option string) (b : speech_button)
    (st : AppState) : AppState * list effect * option speech_phase :=
  if metadata_visible st && negb (isSpeaking st) then
    speak_begin apiKey
      (match b with SpeakTitle => title st | SpeakDescription => imageDescription st end)
      st
  else (st, [], None).

(** The Clear button of line 399 is rendered when [imageUrl] is truthy. *)
Definition click_clear (st : AppState) : AppState * list effect :=
  match imageUrl st with
  | Some url => if String.eqb url "" then (st, []) else handleClear st
  | None => (st, [])
  end.

Inductive event : Type :=
  | SelectFile (file : option File) (url : string)
  | ClickClear
  | ClickCloseModal
  | ClipboardSettles (written : bool)
  | ClickAnalyze
  | ReadSettles (i : nat) (o : read_outcome)
  | ReplySettles (i : nat) (r : settled parse_result)
  | ClickSpeak (b : speech_button)
  | SpeechSettles (i : nat) (x : speech_exchange).

(** A run that goes on waiting, or is over. *)
Definition continue {P} (i : nat) (p : option P) (runs : list P) : list P :=
  match p with
  | Some p' => <[i := p']> runs
  | None => delete i runs
  end.

Definition start {P} (p : option P) (runs : list P) : list P :=
  match p with
  | Some p' => runs ++ [p']
  | None => runs
  end.

Definition step (apiKey : option string) (w : world) (ev : event) : world :=
  match ev with
  | SelectFile file url =>
      let '(st, fx) := handleFileSelect file url (app w) in
      mkWorld st (analyses w) (speeches w) (effects w ++ fx)
  | ClickClear =>
      let '(st, fx) := click_clear (app w) in
      mkWorld st (analyses w) (speeches w) (effects w ++ fx)
  | ClickCloseModal =>
      mkWorld (closeModal (app w)) (analyses w) (speeches w) (effects w)
  | ClipboardSettles written =>
      let message :=
        if written : bool then "Copied to clipboard!" else "Failed to copy text." in
      mkWorld (showModal message (app w)) (analyses w) (speeches w) (effects w)
  | ClickAnalyze =>
      let '(st, fx, p) := click_analyze (app w) in
      mkWorld st (start p (analyses w)) (speeches w) (effects w ++ fx)
  | ReadSettles i o =>
      match analyses w !! i with
      | Some (Reading file) =>
          let '(st, fx, p) :=
            analyze_read_settled file (fileToBase64 file o) (app w) in
          mkWorld st (continue i p (analyses w)) (speeches w) (effects w ++ fx)
      | _ => w
      end
  | ReplySettles i r =>
      match analyses w !! i with
      | Some Requesting =>
          mkWorld (analyze_reply_settled r (app w)) (delete i (analyses w))
            (speeches w) (effects w)
      | _ => w
      end
  | ClickSpeak b =>
      let '(st, fx, p) := click_speak apiKey b (app w) in
      mkWorld st (analyses w) (start p (speeches w)) (effects w ++ fx)
  | SpeechSettles i x =>
      match speeches w !! i with
      | Some p =>
          let '(st, fx, p') := speak_step x p (app w) in
          mkWorld st (analyses w) (continue i p' (speeches w)) (effects w ++ fx)
      | None => w
      end
  end.

Definition run (apiKey : option string) (evs : list event) : world :=
  foldl (step apiKey) initialWorld evs.

(** The requests to the model that wait for their reply. *)
Definition requests_in_flight (w : world) : nat :=
  length (List.filter (λ p, match p with Requesting => true | _ => false end)
            (analyses w)).

(** ** The vocabulary of the specification *)

Definition verdict_fields : list string :=
  ["status"; "zedgeViolationStatus"; "womenPolicyStatus"; "kidsViolationStatus"].

Definition explanation_fields : list string :=
  ["copyrightDescription"; "zedgeViolationDescription";
   "womenPolicyDescription"; "kidsViolationDescription"].

(** All four verdicts of a reply are 'pass'. *)
Definition verdicts_all_pass (reply : js_value) : bool :=
  forallb (λ name, strict_eq_string (get_optional reply name) "pass")
    verdict_fields.

(** One verdict of a reply is 'found'. *)
Definition verdict_found (reply : js_value) : bool :=
  existsb (λ name, strict_eq_string (get_optional reply name) "found")
    verdict_fields.

Definition is_string (v : js_value) : bool :=
  match v with JStr _ => true | _ => false end.

Definition is_verdict (v : js_value) : bool :=
  strict_eq_string v "pass" || strict_eq_string v "found".

Definition absent_or (check : js_value → bool) (v : js_value) : bool :=
  match v with JUndefined => true | _ => check v end.

Definition is_string_array (v : js_value) : bool :=
  match v with JArr items => forallb is_string items | _ => false end.

(** The declared shape of a reply: four verdicts, each 'pass' or 'found',
    four explanation strings, and the optional title, description and
    tags. *)
Definition conforms (reply : js_value) : bool :=
  match reply with
  | JObj _ =>
      forallb (λ name, is_verdict (get_optional reply name)) verdict_fields
      && forallb (λ name, is_string (get_optional reply name))
           explanation_fields
      && absent_or is_string (get_optional reply "title")
      && absent_or is_string (get_optional reply "imageDescription")
      && absent_or is_string_array (get_optional reply "tags")
  | _ => false
  end.

(** [null] and [undefined], on which a property read throws. *)
Definition nullish (v : js_value) : bool :=
  match v with JNull | JUndefined => true | _ => false end.

(** At most one analysis waits, and [loading] says whether one does. *)
Definition exclusive (w : world) : Prop :=
  match analyses w with
  | [] => loading (app w) = false
  | [_] => loading (app w) = true
  | _ => False
  end.

(** The reply a run parsed, if it got that far. *)
Definition parsed_reply (x : analysis_exchange) : option js_value :=
  match read_result x, reply_result x with
  | ReadLoads, Fulfilled (Parsed reply) => Some reply
  | _, _ => None
  end.

(** The exception that sends a run to its [catch] block, if any: a failed
    read, a rejected request, a text that is not JSON, or a reply that is
    [null]. *)
Definition failure (x : analysis_exchange) : option thrown :=
  match read_result x with
  | ReadFails e => Some e
  | ReadLoads =>
      match reply_result x with
      | Rejected e => Some e
      | Fulfilled (ParseThrows e) => Some e
      | Fulfilled (Parsed reply) =>
          match get_property reply "status" with
          | inl e => Some e
          | inr _ => None
          end
      end
  end.

(** The state [resetState] leaves: nothing evaluated, no metadata. *)
Definition verdicts_unevaluated (st : AppState) : Prop :=
  copyrightStatus st = JNull ∧ copyrightDescription st = JNull
  ∧ zedgeViolationStatus st = JNull ∧ zedgeViolationDescription st = JNull
  ∧ womenPolicyStatus st = JNull ∧ womenPolicyDescription st = JNull
  ∧ kidsViolationStatus st = JNull ∧ kidsViolationDescription st = JNull.

Definition metadata_empty (st : AppState) : Prop :=
  title st = JNull ∧ imageDescription st = JNull ∧ tags st = JArr [].

(** The metadata a reply carries, as line 252-254 store it. *)
Definition metadata_from (reply : js_value) (st : AppState) : Prop :=
  title st = get_optional reply "title"
  ∧ imageDescription st = get_optional reply "imageDescription"
  ∧ tags st = (if truthy (get_optional reply "tags")
               then get_optional reply "tags" else JArr []).

(** The state lines 242-255 leave, in closed form, for a reply that is
    not [null]. *)
Definition stored (reply : js_value) (st : AppState) : AppState :=
  let st := setCopyrightStatus (get_optional reply "status") st in
  let st :=
    setCopyrightDescription (get_optional reply "copyrightDescription") st in
  let st :=
    setZedgeViolationStatus (get_optional reply "zedgeViolationStatus") st in
  let st :=
    setZedgeViolationDescription
      (get_optional reply "zedgeViolationDescription") st in
  let st := setWomenPolicyStatus (get_optional reply "womenPolicyStatus") st in
  let st :=
    setWomenPolicyDescription (get_optional reply "womenPolicyDescription") st in
  let st :=
    setKidsViolationStatus (get_optional reply "kidsViolationStatus") st in
  let st :=
    setKidsViolationDescription
      (get_optional reply "kidsViolationDescription") st in
  if verdicts_all_pass reply then
    let st := setTitle (get_optional reply "title") st in
    let st := setImageDescription (get_optional reply "imageDescription") st in
    setTags (if truthy (get_optional reply "tags")
             then get_optional reply "tags" else JArr []) st
  else st.

(** The audio payload of a speech reply. *)
Definition inline_data (result : js_value) (name : string) : js_value :=
  get_optional (get_optional (result_part result) "inlineData") name.

(** A speech reply with one inline audio part. *)
Definition audio_reply (data mimeType : string) : js_value :=
  JObj [("candidates",
         JArr [JObj [("content",
                      JObj [("parts",
                             JArr [JObj [("inlineData",
                                          JObj [("data", JStr data);
                                                ("mimeType", JStr mimeType)])]])])]])].

(** ** Upload and drop (lines 115-131)

    [files] is [event.target.files] or [event.dataTransfer.files], [None]
    when it is absent; only its first element is looked at. *)

Definition first_file (files : option (list File)) : option File :=
  files ≫= head.

Definition handleImageUpload (files : option (list File)) (url : string)
    (st : AppState) : AppState * list effect :=
  handleFileSelect (first_file files) url st.

Definition handleDrop (files : option (list File)) (url : string)
    (st : AppState) : AppState * list effect :=
  handleFileSelect (first_file files) url st.

(** ** What is rendered (lines 339-353, 369-376, 435-439) *)

(** The class of a [PolicyIcon] (line 340). *)
Definition statusClass (status : js_value) : string :=
  if strict_eq_string status "found" then "status-found"
  else if strict_eq_string status "pass" then "status-pass"
  else "status-idle".

(** [getStatusIcon] (lines 349-353): the warning icon, the check icon, or
    nothing. *)
Inductive icon := WarningIcon | CheckIcon.

Definition getStatusIcon (status : js_value) : option icon :=
  if strict_eq_string status "found" then Some WarningIcon
  else if strict_eq_string status "pass" then Some CheckIcon
  else None.

(** A notification card of lines 435-438: rendered when its status is
    truthy. *)
Record card := mkCard {
  card_class : string;
  card_icon : option icon;
  card_heading : string;
  card_text : js_value
}.

Definition notification (label : string) (status description : js_value)
    : option card :=
  if truthy status then
    Some (mkCard
            ("notification-card "
             +:+ (if strict_eq_string status "pass" then "pass-card"
                  else "found-card"))
            (getStatusIcon status)
            (label +:+ ": "
             +:+ (if strict_eq_string status "pass" then "Pass"
                  else "Violation"))
            description)
  else None.

(** The four cards, in the order of the page. *)
Definition notifications (st : AppState) : list (option card) :=
  [notification "Copyright Status" (copyrightStatus st)
     (copyrightDescription st);
   notification "Zedge Policy" (zedgeViolationStatus st)
     (zedgeViolationDescription st);
   notification "Women Policy" (womenPolicyStatus st)
     (womenPolicyDescription st);
   notification "Kids Policy" (kidsViolationStatus st)
     (kidsViolationDescription st)].

(** The grid of policy icons (line 369) is rendered when
    [copyrightStatus !== null]; its four classes. *)
Definition policy_grid (st : AppState) : option (list string) :=
  match copyrightStatus st with
  | JNull => None
  | _ =>
      Some [statusClass (copyrightStatus st);
            statusClass (zedgeViolationStatus st);
            statusClass (womenPolicyStatus st);
            statusClass (kidsViolationStatus st)]
  end.

(** ** More vocabulary *)

(** What the awaited operations of a speech run lead to before any
    playback: the container, or the exception of the [try] block. *)
Definition speech_outcome (x : speech_exchange) : thrown + Blob :=
  match fetch_result x with
  | Rejected e => inl e
  | Fulfilled resp =>
      if ok resp then
        match json_result x with
        | Rejected e => inl e
        | Fulfilled result => build_audio result
        end
      else
        match error_text_result x with
        | Rejected e => inl e
        | Fulfilled errorText =>
            inl (Thrown ("API call failed with status: "
                         +:+ pretty (status resp)
                         +:+ ". Response: " +:+ errorText))
        end
  end.

(** A run that gets past the guard and the key check. *)
Definition speech_starts (apiKey : option string) (text : js_value)
    (st : AppState) : Prop :=
  truthy text = true ∧ isSpeaking st = false
  ∧ ∃ key, apiKey = Some key ∧ key ≠ "".

(** At most one speech run waits, and [isSpeaking] is set while it does. *)
Definition speech_exclusive (w : world) : Prop :=
  match speeches w with
  | [] => True
  | [_] => isSpeaking (app w) = true
  | _ => False
  end.

(** A file whose media type starts with "image/". *)
Definition is_image (file : File) : Prop :=
  String.prefix "image/" (file_type file) = true.

(** The image of the state and the runs on it are of image files, the file
    and its URL are there together, and so far only image files were read
    and sent. *)
Definition images_only (w : world) : Prop :=
  (is_Some (imageFile (app w)) ↔ is_Some (imageUrl (app w)))
  ∧ (∀ file, imageFile (app w) = Some file → is_image file)
  ∧ Forall (λ p, match p with Reading file => is_image file | Requesting => True end)
      (analyses w)
  ∧ Forall (λ e, match e with
                 | ReadAsDataURL file => is_image file
                 | GenerateContent _ mimeType =>
                     String.prefix "image/" mimeType = true
                 | _ => True
                 end) (effects w).

(** The message of the pre-flight check of line 155. *)
Definition no_image_advisory : string := "Please upload an image first.".



(** * Properties *)

(** ** Byte fields *)

Section ByteFields.
Import DataView.

Lemma length_le_bytes n v : length (le_bytes n v) = n.
Proof. revert v; induction n as [|n IH]; intros v; simpl; [done|by rewrite IH]. Qed.

Lemma le_value_le_bytes n v :
  le_value (le_bytes n v) = v `mod` 2 ^ (8 * Z.of_nat n).
Proof.
  revert v; induction n as [|n IH]; intros v.
  - simpl. by rewrite Z.mod_1_r.
  - cbn [le_bytes le_value]. rewrite IH.
    replace (2 ^ (8 * Z.of_nat (S n))) with (256 * 2 ^ (8 * Z.of_nat n)).
    + rewrite Z.rem_mul_r by lia. done.
    + rewrite Nat2Z.inj_succ.
      replace (8 * Z.succ (Z.of_nat n)) with (8 + 8 * Z.of_nat n) by lia.
      rewrite Z.pow_add_r by lia. done.
Qed.

Lemma le_bytes_range n v : Forall is_byte (le_bytes n v).
Proof.
  revert v; induction n as [|n IH]; intros v; simpl; constructor; [|done].
  unfold is_byte. apply Z.mod_pos_bound. lia.
Qed.

Lemma store_at_end pre old suf bs :
  length old = length bs →
  store (length pre) bs (pre ++ old ++ suf) = Some (pre ++ bs ++ suf).
Proof.
  intros Hlen. unfold store.
  rewrite !length_app, <- Hlen.
  destruct (Nat.leb_spec (length pre + length old)
              (length pre + (length old + length suf))) as [_|?]; [|lia].
  rewrite take_app_length.
  rewrite drop_app_add, drop_app_length. done.
Qed.

Lemma load_at_end pre bs suf :
  load (length pre) (length bs) (pre ++ bs ++ suf) = Some bs.
Proof.
  unfold load. rewrite !length_app.
  destruct (Nat.leb_spec (length pre + length bs)
              (length pre + (length bs + length suf))) as [_|?]; [|lia].
  by rewrite drop_app_length, take_app_length.
Qed.

Lemma to_int16_wrap v : int16 v → to_int16 (v `mod` 65536) = v.
Proof.
  unfold int16, to_int16. intros Hv.
  destruct (Z.ltb_spec (v `mod` 65536) 32768) as [H|H].
  - destruct (Z_lt_le_dec v 0) as [Hneg|Hpos].
    + replace v with ((v + 65536) - 1 * 65536) in H by lia.
      rewrite Zminus_mod, Z_mod_mult, Z.sub_0_r, Z.mod_mod in H by lia.
      rewrite Z.mod_small in H by lia. lia.
    + apply Z.mod_small. lia.
  - destruct (Z_lt_le_dec v 0) as [Hneg|Hpos].
    + replace (v `mod` 65536) with (v + 65536); [lia|].
      symmetry. replace v with ((v + 65536) - 1 * 65536) at 1 by lia.
      rewrite Zminus_mod, Z_mod_mult, Z.sub_0_r, Z.mod_mod by lia.
      apply Z.mod_small. lia.
    + rewrite Z.mod_small in H by lia. lia.
Qed.

End ByteFields.

(** ** The WAV container: [pcmToWav] *)

Section PcmToWav.
Import DataView.

Lemma length_wav_header n R : length (wav_header n R) = 44%nat.
Proof. reflexivity. Qed.

Lemma write_header_spec n R body :
  write_header n R (alloc 44 ++ body) = Some (wav_header n R ++ body).
Proof. reflexivity. Qed.

Lemma write_samples_spec pcmData : ∀ pre suf,
  write_samples pcmData (length pre)
    (pre ++ alloc (length pcmData * 2) ++ suf)
  = Some (pre ++ (pcmData ≫= le_bytes 2) ++ suf).
Proof.
  induction pcmData as [|s rest IH]; intros pre suf; [done|].
  cbn [write_samples length Nat.mul Nat.add alloc replicate].
  unfold setInt16, field_bytes.
  change ((0 :: 0 :: replicate (length rest * 2) 0) ++ suf)
    with ([0; 0] ++ (alloc (length rest * 2) ++ suf)).
  rewrite store_at_end by (by rewrite length_le_bytes).
  cbn [mbind option_bind].
  replace (length pre + 2)%nat with (length (pre ++ le_bytes 2 s))
    by (rewrite length_app, length_le_bytes; done).
  rewrite (app_assoc pre (le_bytes 2 s)), IH.
  rewrite <- app_assoc. done.
Qed.

(** The container in closed form: header, then the samples. *)
Lemma pcmToWav_bytes pcmData sampleRate :
  pcmToWav pcmData sampleRate
  = Some (mkBlob (wav_header (length pcmData) sampleRate
                  ++ (pcmData ≫= le_bytes 2)) "audio/wav").
Proof.
  unfold pcmToWav. unfold alloc at 1. rewrite replicate_add.
  change (replicate 44 0) with (alloc 44).
  rewrite write_header_spec. cbn [mbind option_bind].
  pose proof (write_samples_spec pcmData
                (wav_header (length pcmData) sampleRate) []) as H.
  rewrite !app_nil_r in H. rewrite length_wav_header in H.
  unfold alloc in H. rewrite H. done.
Qed.

Lemma length_samples_bytes (pcmData : list Z) :
  length (pcmData ≫= le_bytes 2) = (2 * length pcmData)%nat.
Proof.
  induction pcmData as [|s rest IH]; [done|].
  rewrite bind_cons, length_app, IH. simpl. lia.
Qed.

Lemma sample_at (pcmData : list Z) : ∀ pre i s,
  pcmData !! i = Some s → int16 s →
  getInt16 (length pre + 2 * i) true (pre ++ (pcmData ≫= le_bytes 2))
  = Some s.
Proof.
  induction pcmData as [|s0 rest IH]; intros pre i s Hi Hs; [done|].
  rewrite bind_cons. destruct i as [|i].
  - injection Hi as ->. rewrite Nat.mul_0_r, Nat.add_0_r.
    unfold getInt16, read_field.
    pose proof (load_at_end pre (le_bytes 2 s) (rest ≫= le_bytes 2)) as H.
    rewrite length_le_bytes in H. rewrite H. cbn [mbind option_bind fmap option_fmap option_map].
    rewrite le_value_le_bytes. f_equal. by apply to_int16_wrap.
  - simpl in Hi. rewrite app_assoc.
    replace (length pre + 2 * S i)%nat
      with (length (pre ++ le_bytes 2 s0) + 2 * i)%nat
      by (rewrite length_app, length_le_bytes; lia).
    by apply IH.
Qed.

End PcmToWav.

Section PcmToWavLayout.
Import DataView.

Lemma wav_header_tags n R body : wav_tags (wav_header n R ++ body).
Proof. repeat split. Qed.

Lemma wav_header_fixed n R body : wav_fixed_fields (wav_header n R ++ body).
Proof. repeat split. Qed.

Lemma wav_header_sized n R body :
  wav_sized_fields n R (wav_header n R ++ body).
Proof.
  unfold wav_sized_fields.
  change (getUint32 4 true (wav_header n R ++ body))
    with (Some (le_value (le_bytes 4 (36 + Z.of_nat n * 2)))).
  change (getUint32 24 true (wav_header n R ++ body))
    with (Some (le_value (le_bytes 4 R))).
  change (getUint32 28 true (wav_header n R ++ body))
    with (Some (le_value (le_bytes 4 (2 * R)))).
  change (getUint32 40 true (wav_header n R ++ body))
    with (Some (le_value (le_bytes 4 (Z.of_nat n * 2)))).
  rewrite !le_value_le_bytes. change (8 * Z.of_nat 4) with 32.
  repeat split; do 2 f_equal; lia.
Qed.

Lemma wav_header_bytes n R : Forall is_byte (wav_header n R).
Proof.
  unfold wav_header. repeat apply Forall_app_2; try apply le_bytes_range;
    repeat constructor; by vm_compute.
Qed.

End PcmToWavLayout.

(** C1 (as amended). For every sequence of 16-bit samples and every sample
    rate, [pcmToWav] returns a container of exactly [44 + 2 * length] bytes:
    the tags RIFF, WAVE, fmt and data at offsets 0, 8, 12 and 36; the fixed
    fields 16, 1, 1, 2 and 16 at offsets 16, 20, 22, 32 and 34; the four
    sized 32-bit fields (offsets 4, 24, 28, 40) holding [36 + 2 * length],
    the rate, twice the rate and [2 * length] modulo [2^32], hence those
    very values when the rate is below [2^31] and the file length below
    [2^32]; and from offset 44 on the samples, little-endian, in input
    order. *)
Theorem pcmToWav_layout (pcmData : list Z) (sampleRate : Z) :
  Forall int16 pcmData →
  ∃ bytes, pcmToWav pcmData sampleRate = Some (mkBlob bytes "audio/wav")
           ∧ wav_layout pcmData sampleRate bytes.
Proof.
  intros Hpcm. eexists. split; [apply pcmToWav_bytes|].
  set (n := length pcmData). set (body := pcmData ≫= DataView.le_bytes 2).
  pose proof (wav_header_sized n sampleRate body) as Hsized.
  unfold wav_layout. split_and!.
  - rewrite length_app, length_wav_header. unfold body.
    rewrite length_samples_bytes. done.
  - apply Forall_app_2; [apply wav_header_bytes|].
    unfold body. clear. induction pcmData as [|s rest IH]; [constructor|].
    rewrite bind_cons. apply Forall_app_2; [apply le_bytes_range|done].
  - apply wav_header_tags.
  - apply wav_header_fixed.
  - exact Hsized.
  - intros HR Hlen. destruct Hsized as (H4 & H24 & H28 & H40).
    unfold wav_exact_fields. rewrite H4, H24, H28, H40.
    rewrite !Z.mod_small by lia. done.
  - split.
    + pose proof (drop_app_length (wav_header n sampleRate) body) as H.
      rewrite length_wav_header in H. exact H.
    + intros i s Hi.
      pose proof (sample_at pcmData (wav_header n sampleRate) i s Hi) as H.
      rewrite length_wav_header in H. apply H.
      rewrite Forall_forall in Hpcm. apply Hpcm.
      apply list_elem_of_lookup. eauto.
Qed.

(** The example of the specification: 24000 Hz, samples 0, 1000, -1000. *)
Lemma pcmToWav_layout_witness :
  Forall int16 [0; 1000; -1000]
  ∧ ∃ bytes, pcmToWav [0; 1000; -1000] 24000 = Some (mkBlob bytes "audio/wav")
      ∧ length bytes = 50%nat
      ∧ DataView.getUint32 24 true bytes = Some 24000
      ∧ drop 44 bytes = [0x00; 0x00; 0xE8; 0x03; 0x18; 0xFC].
Proof.
  assert (Hs : Forall int16 [0; 1000; -1000])
    by (repeat constructor; unfold int16; lia).
  split; [exact Hs|].
  destruct (pcmToWav_layout [0; 1000; -1000] 24000 Hs)
    as (bytes & Hrun & Hlen & _ & _ & _ & _ & Hexact & Hbody & _).
  exists bytes. split_and!; [exact Hrun|exact Hlen| |exact Hbody].
  apply Hexact; simpl; lia.
Defined.

(** C1 as stated fails: a rate of [2^32] does not fit the 32-bit field at
    offset 24, which reads 0. *)
Lemma pcmToWav_rate_field_wraps :
  0 < 4294967296 ∧ Forall int16 []
  ∧ ∃ bytes, pcmToWav [] 4294967296 = Some (mkBlob bytes "audio/wav")
      ∧ DataView.getUint32 24 true bytes = Some 0
      ∧ DataView.getUint32 24 true bytes ≠ Some 4294967296.
Proof.
  split; [lia|]. split; [constructor|].
  eexists. split; [reflexivity|]. split; [reflexivity|]. discriminate.
Qed.

(** ** Base64 round trip *)

Section Base64Facts.
Import Base64.

(** Induction three bytes at a time. *)
Lemma list_ind3 {A} (P : list A → Prop) :
  P [] → (∀ a, P [a]) → (∀ a b, P [a; b]) →
  (∀ a b c l, P l → P (a :: b :: c :: l)) → ∀ l, P l.
Proof.
  intros H0 H1 H2 H3 l.
  assert (H : P l ∧ (∀ a, P (a :: l)) ∧ (∀ a b, P (a :: b :: l))).
  { induction l as [|x l (IH0 & IH1 & IH2)]; [by auto|].
    split_and!; [apply IH1|intros a; apply IH2|]. intros a b. by apply H3. }
  apply H.
Qed.

(** Linear arithmetic with the quotients and remainders spelled out. *)
Local Ltac divmod_lia :=
  unfold is_digit, is_byte in *; Z.to_euclidean_division_equations; lia.

(** The facts about the 64 characters, each by enumeration. *)
Lemma digit_ok_all : forallb digit_ok (seq 0 64) = true.
Proof. vm_compute. reflexivity. Qed.

Lemma digit_ok_at d : is_digit d → digit_ok (Z.to_nat d) = true.
Proof.
  intros Hd. pose proof digit_ok_all as H.
  rewrite forallb_forall in H. apply H, in_seq. unfold is_digit in Hd. lia.
Qed.

Lemma digit_char_facts d :
  is_digit d →
  char_digit (digit_char d) = Some d
  ∧ is_whitespace (digit_char d) = false
  ∧ digit_char d ≠ "="%char ∧ digit_char d ≠ ","%char.
Proof.
  intros Hd. pose proof (digit_ok_at d Hd) as H. unfold digit_ok in H.
  assert (Hk : Z.of_nat (Z.to_nat d) = d) by (unfold is_digit in Hd; lia).
  rewrite Hk in H.
  destruct (char_digit (digit_char d)) as [d'|]; [|done].
  repeat (apply andb_prop in H as [H ?]).
  split_and!.
  - f_equal. by apply Z.eqb_eq.
  - by apply negb_true_iff.
  - intros Heq. rewrite Heq in *. done.
  - intros Heq. rewrite Heq in *. done.
Qed.

Lemma sextets_digits bs : Forall is_byte bs → Forall is_digit (sextets bs).
Proof.
  induction bs as [|a|a b|a b c l IH] using list_ind3; intros Hbs.
  - constructor.
  - inversion_clear Hbs as [|?? Ha _]. unfold is_byte in Ha.
    cbn [sextets]. repeat apply Forall_cons_2; try apply Forall_nil_2;
      divmod_lia.
  - inversion_clear Hbs as [|?? Ha Hbs']. inversion_clear Hbs' as [|?? Hb _].
    unfold is_byte in *. cbn [sextets].
    repeat apply Forall_cons_2; try apply Forall_nil_2; divmod_lia.
  - inversion_clear Hbs as [|?? Ha Hbs']. inversion_clear Hbs' as [|?? Hb Hbs''].
    inversion_clear Hbs'' as [|?? Hc Hl]. unfold is_byte in *.
    cbn [sextets]. repeat (apply Forall_cons_2; [divmod_lia|]).
    by apply IH.
Qed.

Lemma octets_sextets bs : Forall is_byte bs → octets (sextets bs) = bs.
Proof.
  induction bs as [|a|a b|a b c l IH] using list_ind3; intros Hbs.
  - done.
  - inversion_clear Hbs as [|?? Ha _]. unfold is_byte in Ha.
    cbn [sextets octets]. f_equal. divmod_lia.
  - inversion_clear Hbs as [|?? Ha Hbs']. inversion_clear Hbs' as [|?? Hb _].
    unfold is_byte in *. cbn [sextets octets]. repeat f_equal; divmod_lia.
  - inversion_clear Hbs as [|?? Ha Hbs']. inversion_clear Hbs' as [|?? Hb Hbs''].
    inversion_clear Hbs'' as [|?? Hc Hl]. unfold is_byte in *.
    cbn [sextets octets]. rewrite IH by done. repeat f_equal; divmod_lia.
Qed.

Lemma digits_of_chars ds :
  Forall is_digit ds → digits (digit_char <$> ds) = Some ds.
Proof.
  induction 1 as [|d ds Hd _ IH]; [done|].
  cbn [fmap list_fmap digits]. destruct (digit_char_facts d Hd) as [-> _].
  cbn [mbind option_bind]. change (list_fmap Z ascii digit_char ds) with (digit_char <$> ds). rewrite IH. done.
Qed.

(** The length of the digits and the padding that completes it. *)
Lemma sextets_padding bs :
  (padding (length bs) = [] ∧ (length (sextets bs) `mod` 4 = 0)%nat)
  ∨ (padding (length bs) = ["="%char] ∧ (length (sextets bs) `mod` 4 = 3)%nat)
  ∨ (padding (length bs) = ["="%char; "="%char]
     ∧ (length (sextets bs) `mod` 4 = 2)%nat).
Proof.
  induction bs as [|a|a b|a b c l IH] using list_ind3.
  - by left.
  - right; right. done.
  - right; left. done.
  - assert (Hp : padding (length (a :: b :: c :: l)) = padding (length l)).
    { unfold padding. cbn [length].
      replace (S (S (S (length l)))) with (length l + 1 * 3)%nat by lia.
      by rewrite Nat.Div0.mod_add. }
    assert (Hl : (length (sextets (a :: b :: c :: l)) `mod` 4
                  = length (sextets l) `mod` 4)%nat).
    { cbn [sextets length].
      replace (S (S (S (S (length (sextets l))))))
        with (length (sextets l) + 1 * 4)%nat by lia.
      by rewrite Nat.Div0.mod_add. }
    rewrite Hp, Hl. exact IH.
Qed.

Lemma filter_all {A} (f : A → bool) l :
  Forall (λ x, f x = true) l → List.filter f l = l.
Proof. induction 1 as [|x l Hx _ IH]; simpl; [done|]. by rewrite Hx, IH. Qed.

Lemma drop_last_eq_snoc l : drop_last_eq (l ++ ["="%char]) = Some l.
Proof.
  unfold drop_last_eq. rewrite reverse_app. simpl.
  by rewrite reverse_involutive.
Qed.

Lemma drop_last_eq_none l :
  Forall (λ c, c ≠ "="%char) l → drop_last_eq l = None.
Proof.
  intros Hl. unfold drop_last_eq.
  destruct (reverse l) as [|c r] eqn:Hr; [done|].
  assert (Hc : c ∈ l) by (apply elem_of_reverse; rewrite Hr; left).
  rewrite Forall_forall in Hl. apply Hl in Hc.
  destruct (Ascii.eqb_spec c "="); done.
Qed.

(** Decoding what the encoder wrote gives the bytes back. *)
Lemma decode_encode bs : Forall is_byte bs → decode (encode bs) = Some bs.
Proof.
  intros Hbs. pose proof (sextets_digits bs Hbs) as Hds.
  set (body := digit_char <$> sextets bs).
  assert (Hbody : Forall (λ c, is_whitespace c = false ∧ c ≠ "="%char) body).
  { unfold body. apply Forall_fmap. eapply Forall_impl; [exact Hds|].
    intros d Hd. simpl. destruct (digit_char_facts d Hd) as (_ & ? & ? & _).
    done. }
  assert (Hneq : Forall (λ c, c ≠ "="%char) body)
    by (eapply Forall_impl; [exact Hbody|]; by intros ? [_ ?]).
  assert (Hlen : length body = length (sextets bs))
    by (unfold body; by rewrite length_fmap).
  unfold decode, encode. rewrite list_ascii_of_string_of_list_ascii.
  fold body. rewrite filter_all; last first.
  { apply Forall_app_2.
    - eapply Forall_impl; [exact Hbody|]. intros c [-> _]. done.
    - unfold padding. destruct (length bs `mod` 3)%nat as [|[|[|?]]];
        repeat constructor. }
  assert (Hstrip : strip_padding (body ++ padding (length bs)) = body).
  { unfold strip_padding. rewrite length_app, Hlen.
    destruct (sextets_padding bs) as [[-> Hm]|[[-> Hm]|[-> Hm]]].
    - rewrite app_nil_r. rewrite drop_last_eq_none by done.
      simpl length. rewrite ?Nat.add_0_r, ?Hm. by case_match.
    - rewrite drop_last_eq_snoc. rewrite drop_last_eq_none by done.
      simpl length. replace (length (sextets bs) + 1)%nat
        with (1 + length (sextets bs))%nat by lia.
      rewrite <- Nat.Div0.add_mod_idemp_r, Hm. done.
    - change ["="%char; "="%char] with (["="%char] ++ ["="%char]).
      rewrite app_assoc, drop_last_eq_snoc, drop_last_eq_snoc.
      simpl length. replace (length (sextets bs) + 2)%nat
        with (2 + length (sextets bs))%nat by lia.
      rewrite <- Nat.Div0.add_mod_idemp_r, Hm. done. }
  rewrite Hstrip, Hlen.
  assert (Hne1 : (length (sextets bs) `mod` 4 =? 1)%nat = false).
  { apply Nat.eqb_neq.
    destruct (sextets_padding bs) as [[_ Hm]|[[_ Hm]|[_ Hm]]]; lia. }
  rewrite Hne1. unfold body. rewrite digits_of_chars by done. simpl.
  by rewrite octets_sextets.
Qed.

End Base64Facts.

Section ByteLoop.

(** The loop of [base64ToArrayBuffer]: filling every index of a fresh
    array leaves the values written, in order. *)
Lemma fill_loop_prefix {A} (f : nat → A) (d : A) (n k : nat) :
  (k ≤ n)%nat →
  foldl (λ acc i, <[i := f i]> acc) (replicate n d) (seq 0 k)
  = (f <$> seq 0 k) ++ replicate (n - k) d.
Proof.
  induction k as [|k IH]; intros Hk.
  - simpl. by rewrite Nat.sub_0_r.
  - rewrite seq_S, foldl_app, IH by lia. simpl.
    rewrite fmap_app, <- app_assoc. simpl.
    replace (n - k)%nat with (S (n - S k)) by lia.
    rewrite insert_app_r_alt by (rewrite length_fmap, length_seq; lia).
    rewrite length_fmap, length_seq, Nat.sub_diag. done.
Qed.

Lemma fill_loop {A} (f : nat → A) (d : A) (n : nat) :
  foldl (λ acc i, <[i := f i]> acc) (replicate n d) (seq 0 n)
  = f <$> seq 0 n.
Proof.
  rewrite fill_loop_prefix by lia. rewrite Nat.sub_diag. apply app_nil_r.
Qed.

Lemma char_code_code_char b : is_byte b → char_code (code_char b) = b.
Proof.
  unfold is_byte, char_code, code_char. intros Hb.
  rewrite nat_ascii_embedding by lia. lia.
Qed.

Lemma length_string_of_list_ascii l :
  String.length (string_of_list_ascii l) = length l.
Proof. induction l as [|c l IH]; simpl; [done|by rewrite IH]. Qed.

Lemma get_string_of_list_ascii l i :
  String.get i (string_of_list_ascii l) = l !! i.
Proof.
  revert i; induction l as [|c l IH]; intros [|i]; simpl; done.
Qed.

(** The bytes of a binary string, as the loop copies them. *)
Lemma copy_binary_string (bs : list Z) :
  Forall is_byte bs →
  let s := string_of_list_ascii (code_char <$> bs) in
  foldl (λ bytes i, <[i := ToUint8 (charCodeAt s i)]> bytes)
    (replicate (String.length s) 0) (seq 0 (String.length s)) = bs.
Proof.
  intros Hbs s. rewrite fill_loop. subst s.
  rewrite length_string_of_list_ascii, length_fmap.
  apply list_eq. intros i. rewrite list_lookup_fmap.
  destruct (decide (i < length bs)%nat) as [Hi|Hi].
  - rewrite lookup_seq_lt by done. simpl.
    unfold charCodeAt. rewrite get_string_of_list_ascii, list_lookup_fmap.
    destruct (lookup_lt_is_Some_2 bs i Hi) as [b Hb]. rewrite Hb. simpl.
    assert (is_byte b) as Hbyte.
    { rewrite Forall_forall in Hbs. apply Hbs, list_elem_of_lookup. eauto. }
    rewrite char_code_code_char by done.
    f_equal. apply Z.mod_small. exact Hbyte.
  - rewrite lookup_seq_ge by lia. simpl.
    symmetry. apply lookup_ge_None. lia.
Qed.

Lemma base64ToArrayBuffer_encode bs :
  Forall is_byte bs → base64ToArrayBuffer (Base64.encode bs) = Some bs.
Proof.
  intros Hbs. unfold base64ToArrayBuffer, atob.
  rewrite decode_encode by done. simpl. f_equal.
  by apply copy_binary_string.
Qed.

End ByteLoop.

Section DataURL.

Lemma split_nonempty sep s : split sep s ≠ [].
Proof.
  destruct s as [|c s]; simpl; [done|].
  destruct (Ascii.eqb c sep); [done|]. by destruct (split sep s).
Qed.

Lemma split_lacks sep s : lacks sep s → split sep s = [s].
Proof.
  unfold lacks. induction s as [|c s IH]; simpl; intros Hs; [done|].
  rewrite not_elem_of_cons in Hs. destruct Hs as [Hc Hs].
  destruct (Ascii.eqb_spec c sep) as [->|_]; [done|].
  by rewrite IH.
Qed.

Lemma split_prefix sep p rest :
  lacks sep p →
  split sep (p +:+ rest)
  = match split sep rest with
    | piece :: pieces => (p +:+ piece) :: pieces
    | [] => []
    end.
Proof.
  unfold lacks. induction p as [|c p IH]; intros Hp.
  - change ("" +:+ rest) with rest.
    destruct (split sep rest) as [|piece pieces]; done.
  - change (String c p +:+ rest) with (String c (p +:+ rest)).
    simpl in Hp. rewrite not_elem_of_cons in Hp. destruct Hp as [Hc Hp].
    cbn [split]. destruct (Ascii.eqb_spec c sep) as [->|_]; [done|].
    rewrite IH by done. destruct (split sep rest) eqn:Hr; [|done].
    by apply split_nonempty in Hr.
Qed.

Lemma encode_lacks_comma bs :
  Forall is_byte bs → lacks "," (Base64.encode bs).
Proof.
  intros Hbs. unfold lacks, Base64.encode.
  rewrite list_ascii_of_string_of_list_ascii.
  rewrite not_elem_of_app. split.
  - intros Hin. apply list_elem_of_fmap in Hin as (d & Hd & Hin).
    pose proof (sextets_digits bs Hbs) as Hds.
    rewrite Forall_forall in Hds. apply Hds in Hin.
    by destruct (digit_char_facts d Hin) as (_ & _ & _ & Hne).
  - unfold Base64.padding.
    destruct (length bs `mod` 3)%nat as [|[|[|?]]];
      rewrite ?not_elem_of_cons; split_and?; try done; apply not_elem_of_nil.
Qed.

Lemma fileToBase64_loads file :
  lacks "," (file_type file) → Forall is_byte (file_bytes file) →
  fileToBase64 file ReadLoads
  = Fulfilled (Some (Base64.encode (file_bytes file))).
Proof.
  intros Htype Hbytes. unfold fileToBase64, readAsDataURL. f_equal.
  change ("data:" +:+ file_type file +:+ ";base64,"
          +:+ Base64.encode (file_bytes file))
    with (String "d" (String "a" (String "t" (String "a" (String ":"
           (file_type file +:+ ";base64,"
            +:+ Base64.encode (file_bytes file))))))).
  cbn [split Ascii.eqb Bool.eqb]. rewrite split_prefix by done.
  change (split "," (";base64," +:+ Base64.encode (file_bytes file)))
    with (";base64" :: split "," (Base64.encode (file_bytes file))).
  rewrite split_lacks by (by apply encode_lacks_comma). done.
Qed.

End DataURL.

(** C4. Whatever the bytes of a file, the base64 text that
    [fileToBase64] extracts from the data URL of the file decodes, through
    [base64ToArrayBuffer], to those very bytes. (The media type of a file
    holds no comma, so that the text is the second piece of the split.) *)
Theorem base64_round_trip (file : File) :
  Forall is_byte (file_bytes file) →
  lacks "," (file_type file) →
  ∃ base64, fileToBase64 file ReadLoads = Fulfilled (Some base64)
            ∧ base64 = Base64.encode (file_bytes file)
            ∧ base64ToArrayBuffer base64 = Some (file_bytes file).
Proof.
  intros Hbytes Htype. exists (Base64.encode (file_bytes file)).
  split_and!; [by apply fileToBase64_loads|done|].
  by apply base64ToArrayBuffer_encode.
Qed.

Lemma base64_round_trip_witness :
  ∃ base64, fileToBase64 (mkFile "image/png" [137; 80; 78; 71; 0; 255; 13])
              ReadLoads = Fulfilled (Some base64)
            ∧ base64 = "iVBORwD/DQ=="
            ∧ base64ToArrayBuffer base64 = Some [137; 80; 78; 71; 0; 255; 13].
Proof.
  apply (base64_round_trip (mkFile "image/png" [137; 80; 78; 71; 0; 255; 13])).
  - repeat constructor; unfold is_byte; simpl; lia.
  - unfold lacks. simpl. rewrite !not_elem_of_cons. split_and!; try done.
    apply not_elem_of_nil.
Defined.

(** ** The analysis run *)

Section Analysis.

(** A property read on anything but [null] and [undefined] answers as
    the optional read does. *)
Lemma get_property_defined v name :
  v ≠ JNull → v ≠ JUndefined →
  get_property v name = inr (get_optional v name).
Proof. by destruct v. Qed.

Lemma get_property_throws v name e :
  get_property v name = inl e → v = JNull ∨ v = JUndefined.
Proof. destruct v; simpl; intros; simplify_eq; auto. Qed.

(** Lines 242-255 on a reply that is not [null]: no exception. *)
Lemma store_reply_defined reply st :
  reply ≠ JNull → reply ≠ JUndefined →
  store_reply reply st = (stored reply st, inr ()).
Proof.
  intros Hn Hu.
  unfold store_reply, stored, verdicts_all_pass, verdict_fields, is_pass,
    and_then, read, update.
  cbv [mbind mret try_bind try_ret forallb].
  rewrite !get_property_defined by done.
  destruct (strict_eq_string (get_optional reply "status") "pass");
    destruct (strict_eq_string (get_optional reply "zedgeViolationStatus") "pass");
    destruct (strict_eq_string (get_optional reply "womenPolicyStatus") "pass");
    destruct (strict_eq_string (get_optional reply "kidsViolationStatus") "pass");
    reflexivity.
Qed.

Lemma store_reply_throws reply st :
  reply = JNull ∨ reply = JUndefined →
  store_reply reply st = (st, inl (null_read_error reply "status")).
Proof. by intros [-> | ->]. Qed.

(** A run past the pre-flight check, by what the exchange answers. *)
Lemma run_fails x st file e :
  imageFile st = Some file → failure x = Some e →
  (analyzeImageWithAI x st).1
  = analysis_finally (analysis_catch e (resetState (setLoading true st))).
Proof.
  intros Hfile Hfail. unfold analyzeImageWithAI, analyze_begin.
  rewrite Hfile. unfold failure in Hfail.
  destruct x as [[|e1] reply]; simpl in *; [|by simplify_eq].
  destruct reply as [[e2|reply]|e2]; simpl in *; simplify_eq; try done.
  destruct (get_property reply "status") as [e'|] eqn:Hget; simplify_eq.
  unfold analyze_reply_settled.
  pose proof (get_property_throws _ _ _ Hget) as Hnull.
  rewrite store_reply_throws by done.
  assert (null_read_error reply "status" = e) as ->; [|done].
  destruct Hnull as [-> | ->]; simpl in Hget; by simplify_eq.
Qed.

Lemma run_stores x st file reply :
  imageFile st = Some file → failure x = None →
  parsed_reply x = Some reply →
  (analyzeImageWithAI x st).1
  = analysis_finally (stored reply (resetState (setLoading true st))).
Proof.
  intros Hfile Hfail Hreply. unfold analyzeImageWithAI, analyze_begin.
  rewrite Hfile. unfold failure, parsed_reply in *.
  destruct x as [[|e1] r]; simpl in *; [|done].
  destruct r as [[e2|reply']|e2]; simpl in *; simplify_eq.
  destruct (get_property reply "status") as [|v] eqn:Hget; [done|].
  unfold analyze_reply_settled.
  rewrite store_reply_defined; [done| |]; intros ->; done.
Qed.

Lemma failure_or_reply x :
  (∃ e, failure x = Some e) ∨ (failure x = None ∧ ∃ reply, parsed_reply x = Some reply).
Proof.
  unfold failure, parsed_reply.
  destruct x as [[|e1] r]; simpl; [|eauto].
  destruct r as [[e2|reply]|e2]; simpl; eauto.
  destruct (get_property reply "status"); eauto.
Qed.

Lemma failure_not_all_pass x reply e :
  failure x = Some e → parsed_reply x = Some reply →
  verdicts_all_pass reply = false.
Proof.
  unfold failure, parsed_reply.
  destruct x as [[|e1] r]; simpl; [|done].
  destruct r as [[e2|reply']|e2]; simpl; try done.
  intros Hf ?; simplify_eq.
  destruct (get_property reply "status") eqn:Hget; [|done].
  apply get_property_throws in Hget. by destruct Hget as [-> | ->].
Qed.

Lemma found_is_not_pass v :
  strict_eq_string v "found" = true → strict_eq_string v "pass" = false.
Proof.
  destruct v as [| | | |s| |]; simpl; try done.
  intros ->%String.eqb_eq. done.
Qed.

Lemma found_not_all_pass reply :
  verdict_found reply = true → verdicts_all_pass reply = false.
Proof.
  unfold verdict_found, verdicts_all_pass, verdict_fields.
  cbn [existsb forallb]. rewrite !orb_true_iff.
  intros [H|[H|[H|[H|H]]]]; [..|done];
    apply found_is_not_pass in H; rewrite H; simpl;
    by rewrite ?andb_false_r.
Qed.

(** Without an image the run is the advisory alone: nothing is read,
    nothing is sent, and only the modal changes. *)
Lemma run_without_image x st :
  imageFile st = None →
  analyzeImageWithAI x st = (showModal "Please upload an image first." st, []).
Proof.
  intros H. unfold analyzeImageWithAI, analyze_begin. by rewrite H.
Qed.

End Analysis.

(** C2. A run of the analysis on an image leaves a title, a description
    and tags only from a reply whose four verdicts are all 'pass': then
    they are the reply's (the tags the empty array when the reply has
    none, with no error); in every other case, a verdict 'found' among
    them, the three are empty, whatever the reply carries. *)
Theorem metadata_gated (x : analysis_exchange) (st : AppState) (file : File) :
  imageFile st = Some file →
  let st' := (analyzeImageWithAI x st).1 in
  match parsed_reply x with
  | Some reply =>
      (if verdicts_all_pass reply
       then metadata_from reply st' ∧ error st' = None
       else metadata_empty st')
      ∧ (verdict_found reply = true → metadata_empty st')
      ∧ (verdicts_all_pass reply = true →
         get_optional reply "tags" = JUndefined →
         tags st' = JArr [] ∧ error st' = None)
  | None => metadata_empty st'
  end.
Proof.
  intros Hfile st'.
  assert (Hcases :
    match parsed_reply x with
    | Some reply =>
        if verdicts_all_pass reply
        then metadata_from reply st' ∧ error st' = None
        else metadata_empty st'
    | None => metadata_empty st'
    end).
  { destruct (failure_or_reply x) as [[e He]|[Hok [reply Hreply]]].
    - assert (Hempty : metadata_empty st').
      { subst st'. rewrite (run_fails x st file e) by done.
        by destruct st. }
      destruct (parsed_reply x) as [reply|] eqn:Hreply; [|done].
      by rewrite (failure_not_all_pass x reply e).
    - rewrite Hreply. subst st'.
      rewrite (run_stores x st file reply) by done.
      unfold stored. destruct (verdicts_all_pass reply); by destruct st. }
  destruct (parsed_reply x) as [reply|]; [|done].
  split_and!; [done| |].
  - intros Hfound. by rewrite (found_not_all_pass reply Hfound) in Hcases.
  - intros Hpass Htags. rewrite Hpass in Hcases.
    destruct Hcases as [(_ & _ & Ht) He]. rewrite Htags in Ht. done.
Qed.

(** The example of the specification: 'found' for the copyright check,
    and a title in the reply all the same. *)
Lemma metadata_gated_witness :
  let reply := JObj [("status", JStr "found");
                     ("copyrightDescription", JStr "A watermark is visible.");
                     ("zedgeViolationStatus", JStr "pass");
                     ("zedgeViolationDescription", JStr "None.");
                     ("womenPolicyStatus", JStr "pass");
                     ("womenPolicyDescription", JStr "None.");
                     ("kidsViolationStatus", JStr "pass");
                     ("kidsViolationDescription", JStr "None.");
                     ("title", JStr "X")] in
  let st := setImageFile (Some (mkFile "image/png" [1; 2; 3])) initialState in
  metadata_empty
    (analyzeImageWithAI (mkExchange ReadLoads (Fulfilled (Parsed reply))) st).1.
Proof.
  intros reply st.
  pose proof (metadata_gated (mkExchange ReadLoads (Fulfilled (Parsed reply)))
                st (mkFile "image/png" [1; 2; 3]) eq_refl) as H.
  simpl in H. destruct H as (_ & H & _). apply H. reflexivity.
Defined.

(** C3 (as amended). A run that got a reply fails, with the message
    "An error occurred during AI analysis: " and the cause, exactly when
    the text of the reply is not JSON or denotes [null]: the parse is the
    only check. A reply that parses to anything else does not fail the
    run, whether it has the declared shape or not; one that has the
    declared shape never fails it. *)
Theorem analysis_fails_on_parse_only (x : analysis_exchange) (st : AppState)
    (file : File) (p : parse_result) :
  imageFile st = Some file →
  read_result x = ReadLoads →
  reply_result x = Fulfilled p →
  let st' := (analyzeImageWithAI x st).1 in
  let failed_with e :=
    error st' = Some (analysis_error e)
    ∧ isModalOpen st' = true ∧ modalContent st' = analysis_error e in
  match p with
  | ParseThrows e => failed_with e
  | Parsed reply =>
      (if nullish reply then failed_with (null_read_error reply "status")
       else error st' = None)
      ∧ (conforms reply = true → error st' = None)
  end.
Proof.
  intros Hfile Hread Hreply st' failed_with.
  destruct x as [r q]. simpl in Hread, Hreply. subst r q.
  destruct p as [e|reply].
  - subst st' failed_with. simpl.
    rewrite (run_fails _ st file e) by done. by destruct st.
  - assert (Hnull : if nullish reply
                    then failed_with (null_read_error reply "status")
                    else error st' = None).
    { destruct (nullish reply) eqn:Hn.
      - subst st' failed_with. simpl.
        rewrite (run_fails _ st file (null_read_error reply "status")).
        + by destruct st.
        + done.
        + unfold failure. simpl. by destruct reply.
      - subst st'.
        rewrite (run_stores _ st file reply); [|done| |done].
        + unfold stored. destruct (verdicts_all_pass reply); by destruct st.
        + unfold failure. simpl. by destruct reply. }
    split; [exact Hnull|]. intros Hc.
    destruct reply; try done.
Qed.

Lemma analysis_fails_on_parse_only_witness :
  let st := setImageFile (Some (mkFile "image/png" [1; 2; 3])) initialState in
  let cause := Thrown "Unexpected end of JSON input" in
  let x := mkExchange ReadLoads (Fulfilled (ParseThrows cause)) in
  error (analyzeImageWithAI x st).1
  = Some "An error occurred during AI analysis: Unexpected end of JSON input".
Proof.
  intros st cause x.
  pose proof (analysis_fails_on_parse_only x st (mkFile "image/png" [1; 2; 3])
                (ParseThrows cause) eq_refl eq_refl eq_refl) as (H & _).
  exact H.
Defined.

(** C3 as stated fails: a reply whose verdict is neither 'pass' nor
    'found' does not have the declared shape, and the run stores it
    without failing. *)
Lemma unvalidated_reply_is_stored :
  let reply := JObj [("status", JStr "maybe")] in
  let st := setImageFile (Some (mkFile "image/png" [1; 2; 3])) initialState in
  let st' :=
    (analyzeImageWithAI (mkExchange ReadLoads (Fulfilled (Parsed reply))) st).1 in
  conforms reply = false
  ∧ error st' = None ∧ isModalOpen st' = false
  ∧ copyrightStatus st' = JStr "maybe".
Proof. repeat split. Qed.

(** C5. A run of the analysis that fails, at the read of the file, at the
    request, at the parse or on a [null] reply, ends with the four
    verdicts, their explanations, the title, the description and the tags
    as [resetState] left them, the error recorded and [loading] off; a
    run that does not fail records no error. *)
Theorem failure_leaves_reset_state (x : analysis_exchange) (st : AppState)
    (file : File) :
  imageFile st = Some file →
  let st' := (analyzeImageWithAI x st).1 in
  match failure x with
  | Some e =>
      verdicts_unevaluated st' ∧ metadata_empty st'
      ∧ error st' = Some (analysis_error e) ∧ loading st' = false
  | None => error st' = None ∧ loading st' = false
  end.
Proof.
  intros Hfile st'.
  destruct (failure_or_reply x) as [[e He]|[Hok [reply Hreply]]].
  - rewrite He. subst st'. rewrite (run_fails x st file e) by done.
    by destruct st.
  - rewrite Hok. subst st'. rewrite (run_stores x st file reply) by done.
    unfold stored. destruct (verdicts_all_pass reply); by destruct st.
Qed.

Lemma failure_leaves_reset_state_witness :
  let st :=
    setTitle (JStr "Old title")
      (setCopyrightStatus (JStr "pass")
         (setImageFile (Some (mkFile "image/png" [1; 2; 3])) initialState)) in
  let x := mkExchange ReadLoads (Rejected (Thrown "Failed to fetch")) in
  let st' := (analyzeImageWithAI x st).1 in
  verdicts_unevaluated st' ∧ metadata_empty st'
  ∧ error st' = Some "An error occurred during AI analysis: Failed to fetch"
  ∧ loading st' = false.
Proof.
  intros st x st'.
  exact (failure_leaves_reset_state x st (mkFile "image/png" [1; 2; 3]) eq_refl).
Defined.

(** ** The speech run *)

Lemma speak_refused (apiKey : option string) (x : speech_exchange)
    (text : js_value) (st : AppState) :
  negb (truthy text) || isSpeaking st = true →
  handleTextToSpeech apiKey x text st = (st, []).
Proof. intros H. unfold handleTextToSpeech, speak_begin. by rewrite H. Qed.

(** C7. A call of [handleTextToSpeech] with no text, an empty text, or
    while [isSpeaking] is set does nothing: the state is the same, and
    there is no request, no message and no other effect. *)
Theorem speak_guard (apiKey : option string) (x : speech_exchange)
    (text : js_value) (st : AppState) :
  truthy text = false ∨ isSpeaking st = true →
  handleTextToSpeech apiKey x text st = (st, []).
Proof.
  intros H. apply speak_refused.
  destruct H as [-> | ->]; [done|]. by rewrite orb_true_r.
Qed.

Lemma speak_guard_witness :
  let busy := setIsSpeaking true initialState in
  let x := mkSpeech (Fulfilled (mkResponse true 200)) (Fulfilled "")
             (Fulfilled JNull) "blob:audio" PlayedToEnd in
  handleTextToSpeech (Some "key") x (JStr "A fox in a field") busy = (busy, [])
  ∧ handleTextToSpeech (Some "key") x JNull initialState = (initialState, [])
  ∧ handleTextToSpeech (Some "key") x (JStr "") initialState = (initialState, []).
Proof.
  intros busy x. split_and!.
  - apply (speak_guard (Some "key") x (JStr "A fox in a field") busy).
    right. reflexivity.
  - apply (speak_guard (Some "key") x JNull initialState). left. reflexivity.
  - apply (speak_guard (Some "key") x (JStr "") initialState). left. reflexivity.
Defined.

(** C9. With a text and no playback in flight, a call of
    [handleTextToSpeech] with no API key configured shows the message
    "API key is not configured.", leaves [isSpeaking] off, and has no
    effect outside the state: no request is sent. *)
Theorem speak_without_credential (apiKey : option string)
    (x : speech_exchange) (text : js_value) (st : AppState) :
  truthy text = true → isSpeaking st = false →
  apiKey = None ∨ apiKey = Some "" →
  ∃ st', handleTextToSpeech apiKey x text st = (st', [])
         ∧ st' = setIsSpeaking false (showModal "API key is not configured."
                                        (setIsSpeaking true st))
         ∧ isSpeaking st' = false
         ∧ isModalOpen st' = true
         ∧ modalContent st' = "API key is not configured.".
Proof.
  intros Htext Hfree Hkey. eexists. split_and!; [|reflexivity|done..].
  unfold handleTextToSpeech, speak_begin. rewrite Htext, Hfree.
  by destruct Hkey as [-> | ->].
Qed.

Lemma speak_without_credential_witness :
  let x := mkSpeech (Fulfilled (mkResponse true 200)) (Fulfilled "")
             (Fulfilled JNull) "blob:audio" PlayedToEnd in
  ∃ st', handleTextToSpeech None x (JStr "A fox in a field") initialState
         = (st', [])
         ∧ isSpeaking st' = false
         ∧ modalContent st' = "API key is not configured.".
Proof.
  intros x.
  destruct (speak_without_credential None x (JStr "A fox in a field")
              initialState eq_refl eq_refl (or_introl eq_refl))
    as (st' & Hrun & _ & Hflag & _ & Hmsg).
  exists st'. done.
Defined.

(** C10. When the reply to the speech request carries inline data with a
    media type that starts with "audio/" and has a rate parameter, and
    the data decode to an odd number of bytes, the [Int16Array]
    constructor throws; the [catch] block shows the error and switches
    [isSpeaking] off, and the only effect of the run is the request: no
    container is built, no URL minted, nothing played. *)
Theorem odd_audio_is_rejected (key : string) (x : speech_exchange)
    (text : js_value) (st : AppState) (resp : response) (result : js_value)
    (mimeType digits : string) (pcmData : list Z) :
  truthy text = true → isSpeaking st = false → key ≠ "" →
  fetch_result x = Fulfilled resp → ok resp = true →
  json_result x = Fulfilled result →
  truthy (inline_data result "data") = true →
  inline_data result "mimeType" = JStr mimeType →
  String.prefix "audio/" mimeType = true →
  match_rate mimeType = Some digits →
  base64ToArrayBuffer (ToString (inline_data result "data")) = Some pcmData →
  Nat.odd (length pcmData) = true →
  ∃ e st',
    Int16Array pcmData = inl e
    ∧ handleTextToSpeech (Some key) x text st
      = (st', [Fetch (apiUrl key) ("Say cheerfully: " +:+ ToString text)])
    ∧ st' = speech_catch e (setIsSpeaking true st)
    ∧ isSpeaking st' = false
    ∧ isModalOpen st' = true
    ∧ modalContent st' = speech_error e.
Proof.
  intros Htext Hfree Hkey Hfetch Hok Hjson Hdata Hmime Hprefix Hrate Hpcm Hodd.
  assert (Heven : Nat.even (length pcmData) = false)
    by (rewrite <- Nat.negb_odd, Hodd; done).
  exists (Thrown "byte length of Int16Array should be a multiple of 2").
  eexists. split_and!; [|..|reflexivity|done|done|done].
  - unfold Int16Array. by rewrite Heven.
  - unfold handleTextToSpeech, speak_begin. rewrite Htext, Hfree.
    destruct (String.eqb_spec key "") as [?|_]; [done|].
    cbn [orb negb speak_steps speak_step]. rewrite Hfetch.
    unfold speak_fetch_settled. rewrite Hok.
    cbn [speak_steps speak_step]. rewrite Hjson.
    unfold speak_json_settled, build_audio. fold (inline_data result "data").
    fold (inline_data result "mimeType").
    rewrite Hdata, Hmime, Hprefix, Hrate, Hpcm. unfold Int16Array.
    rewrite Heven. cbn [speak_steps]. by rewrite !app_nil_r.
Qed.

Lemma odd_audio_is_rejected_witness :
  let x := mkSpeech (Fulfilled (mkResponse true 200)) (Fulfilled "")
             (Fulfilled (audio_reply "AAAA" "audio/L16;codec=pcm;rate=24000"))
             "blob:audio" PlayedToEnd in
  ∃ st', handleTextToSpeech (Some "key") x (JStr "A fox in a field") initialState
         = (st', [Fetch (apiUrl "key") "Say cheerfully: A fox in a field"])
         ∧ isSpeaking st' = false
         ∧ modalContent st'
           = "An error occurred during TTS generation: byte length of Int16Array should be a multiple of 2".
Proof.
  intros x.
  destruct (odd_audio_is_rejected "key" x (JStr "A fox in a field")
              initialState (mkResponse true 200)
              (audio_reply "AAAA" "audio/L16;codec=pcm;rate=24000")
              "audio/L16;codec=pcm;rate=24000" "24000" [0; 0; 0])
    as (e & st' & He & Hrun & _ & Hflag & _ & Hmsg);
    try reflexivity; [discriminate|].
  exists st'. split_and!; [exact Hrun|exact Hflag|].
  rewrite Hmsg. injection He as <-. reflexivity.
Defined.

(** The two ends of a playback (C8). The [ended] event switches
    [isSpeaking] off and revokes the URL. *)
Lemma playback_end_clears_flag (x : speech_exchange) (audioUrl : string)
    (st : AppState) :
  playback_result x = PlayedToEnd →
  speak_step x (Playing audioUrl) st
  = (setIsSpeaking false st, [RevokeObjectURL audioUrl], None).
Proof. intros H. simpl. by rewrite H. Qed.

(** The rejection of [play()] shows a message and leaves [isSpeaking] as
    it is; nothing is awaited afterwards. *)
Lemma playback_rejection_keeps_flag (x : speech_exchange) (audioUrl : string)
    (st : AppState) (e : thrown) :
  playback_result x = PlayRejected e →
  ∃ st', speak_step x (Playing audioUrl) st = (st', [], None)
         ∧ isSpeaking st' = isSpeaking st
         ∧ modalContent st' = "Failed to play audio: " +:+ message e.
Proof. intros H. simpl. rewrite H. eexists. by split_and!. Qed.

(** C8, at a run whose playback is refused: two bytes of audio at 24000 Hz
    come back, the container is built and [play()] is called, and its
    promise is rejected. The message is shown, and [isSpeaking] is still
    set when the run is over: every later call is refused by the guard of
    line 266. *)
Theorem play_rejection_leaves_flag_set :
  let x := mkSpeech (Fulfilled (mkResponse true 200)) (Fulfilled "")
             (Fulfilled (audio_reply "AAA=" "audio/L16;codec=pcm;rate=24000"))
             "blob:audio"
             (PlayRejected (Thrown "play() failed because the user didn't interact with the document first.")) in
  ∃ st' wav,
    handleTextToSpeech (Some "key") x (JStr "A fox in a field") initialState
    = (st', [Fetch (apiUrl "key") "Say cheerfully: A fox in a field";
             CreateObjectURL wav "blob:audio"; Play "blob:audio"])
    ∧ modalContent st'
      = "Failed to play audio: play() failed because the user didn't interact with the document first."
    ∧ isSpeaking st' = true
    ∧ ∀ apiKey x' text, handleTextToSpeech apiKey x' text st' = (st', []).
Proof.
  intros x. eexists. eexists. split_and!; [reflexivity|reflexivity|reflexivity|].
  intros apiKey x' text. apply speak_refused. by rewrite orb_true_r.
Qed.

(** ** One analysis at a time *)

Section Exclusion.

(** The handlers that are not part of the analysis leave [loading]
    alone. *)
Lemma loading_handleFileSelect file url st :
  loading (handleFileSelect file url st).1 = loading st.
Proof.
  unfold handleFileSelect. destruct file as [f|]; [|done].
  destruct (String.prefix "image/" (file_type f)); by destruct st.
Qed.

Lemma loading_click_clear st : loading (click_clear st).1 = loading st.
Proof.
  unfold click_clear, handleClear.
  destruct (imageUrl st) as [url|] eqn:Hurl; [|done].
  destruct (String.eqb url ""); [done|]. by destruct st.
Qed.

Lemma loading_speak_begin apiKey text st :
  loading (speak_begin apiKey text st).1.1 = loading st.
Proof.
  unfold speak_begin. destruct (negb (truthy text) || isSpeaking st); [done|].
  destruct apiKey as [key|]; [destruct (String.eqb key "")|]; by destruct st.
Qed.

Lemma loading_click_speak apiKey b st :
  loading (click_speak apiKey b st).1.1 = loading st.
Proof.
  unfold click_speak.
  destruct (metadata_visible st && negb (isSpeaking st)); [|done].
  apply loading_speak_begin.
Qed.

Lemma loading_speak_step x p st :
  loading (speak_step x p st).1.1 = loading st.
Proof.
  destruct p as [|status| |audioUrl]; simpl.
  - destruct (fetch_result x) as [resp|e]; simpl;
      [by destruct (ok resp)|by destruct st].
  - destruct (error_text_result x); simpl; by destruct st.
  - destruct (json_result x) as [result|e]; simpl; [|by destruct st].
    destruct (build_audio result); simpl; by destruct st.
  - destruct (playback_result x); simpl; by destruct st.
Qed.

(** The analysis switches [loading] on when it starts and off when it
    ends. *)
Lemma loading_analyze_reply_settled r st :
  loading (analyze_reply_settled r st) = false.
Proof.
  unfold analyze_reply_settled.
  destruct (match r with
            | Fulfilled (ParseThrows e) => (st, inl e)
            | Fulfilled (Parsed parsedJson) => store_reply parsedJson st
            | Rejected e => (st, inl e)
            end) as [st' [e|[]]]; by destruct st'.
Qed.

Lemma click_analyze_idle st :
  loading st = false →
  match click_analyze st with
  | (st', _, Some _) => loading st' = true
  | (st', _, None) => loading st' = false
  end.
Proof.
  intros Hidle. unfold click_analyze, analyze_disabled, analyze_begin.
  rewrite Hidle. destruct (imageFile st) as [file|] eqn:Hfile; simpl.
  - by destruct st.
  - done.
Qed.

Lemma click_analyze_busy st :
  loading st = true → click_analyze st = (st, [], None).
Proof. intros H. unfold click_analyze, analyze_disabled. by rewrite H. Qed.

Lemma step_exclusive apiKey w ev : exclusive w → exclusive (step apiKey w ev).
Proof.
  unfold exclusive. intros Hw.
  destruct ev as [file url| | |written| |i o|i r|b|i x]; simpl.
  - destruct (handleFileSelect file url (app w)) as [st fx] eqn:Hrun.
    simpl. pose proof (loading_handleFileSelect file url (app w)) as Hl.
    rewrite Hrun in Hl. simpl in Hl. by rewrite Hl.
  - destruct (click_clear (app w)) as [st fx] eqn:Hrun.
    simpl. pose proof (loading_click_clear (app w)) as Hl.
    rewrite Hrun in Hl. simpl in Hl. by rewrite Hl.
  - by destruct (app w).
  - by destruct (app w).
  - destruct (analyses w) as [|p [|p' runs]]; [| |done].
    + pose proof (click_analyze_idle (app w) Hw) as Hc.
      destruct (click_analyze (app w)) as [[st fx] [p|]]; simpl; done.
    + rewrite (click_analyze_busy (app w) Hw). simpl. done.
  - destruct (analyses w) as [|p [|p' runs]] eqn:Hruns; [| |done].
    + rewrite lookup_nil. simpl. by rewrite Hruns.
    + destruct i as [|i]; simpl; [|by rewrite Hruns].
      destruct p as [file|]; [|simpl; by rewrite Hruns].
      destruct (fileToBase64 file o) as [base64Data|e]; simpl; [done|].
      by destruct (app w).
  - destruct (analyses w) as [|p [|p' runs]] eqn:Hruns; [| |done].
    + rewrite lookup_nil. simpl. by rewrite Hruns.
    + destruct i as [|i]; simpl; [|by rewrite Hruns].
      destruct p as [file|]; [simpl; by rewrite Hruns|]. simpl.
      apply loading_analyze_reply_settled.
  - destruct (click_speak apiKey b (app w)) as [[st fx] p] eqn:Hrun.
    simpl. pose proof (loading_click_speak apiKey b (app w)) as Hl.
    rewrite Hrun in Hl. simpl in Hl. by rewrite Hl.
  - destruct (speeches w !! i) as [p|]; [|done].
    destruct (speak_step x p (app w)) as [[st fx] p'] eqn:Hrun.
    simpl. pose proof (loading_speak_step x p (app w)) as Hl.
    rewrite Hrun in Hl. simpl in Hl. by rewrite Hl.
Qed.

Lemma run_exclusive apiKey evs : exclusive (run apiKey evs).
Proof.
  unfold run. assert (H : exclusive initialWorld) by done.
  revert H. generalize initialWorld.
  induction evs as [|ev evs IH]; intros w Hw; [done|].
  simpl. apply IH. by apply step_exclusive.
Qed.

(** The handler itself has no guard: called on a state that is loading,
    it would start a second run. The refusal is the button's. *)
Lemma analyze_begin_has_no_guard st file :
  imageFile st = Some file →
  ∃ st', analyze_begin st = (st', [ReadAsDataURL file], Some (Reading file)).
Proof. intros H. unfold analyze_begin. rewrite H. eauto. Qed.

End Exclusion.

(** C6. Whatever the events, and in whatever order they come, at most one
    run of the analysis waits at any time, so at most one request is in
    flight; and while a run waits, [loading] is set and a click on the
    analysis button changes nothing: no state, no effect, no second
    run. *)
Theorem analysis_runs_one_at_a_time (apiKey : option string)
    (evs : list event) :
  let w := run apiKey evs in
  (length (analyses w) ≤ 1)%nat
  ∧ (requests_in_flight w ≤ 1)%nat
  ∧ (analyses w ≠ [] →
     loading (app w) = true ∧ step apiKey w ClickAnalyze = w).
Proof.
  intros w. pose proof (run_exclusive apiKey evs) as Hw. fold w in Hw.
  unfold exclusive in Hw. unfold requests_in_flight.
  destruct w as [st runs sp fx]. simpl in *.
  destruct runs as [|p [|p' runs]]; [| |done].
  - split_and!; [simpl; lia|simpl; lia|done].
  - split_and!; [simpl; lia|destruct p; simpl; lia|].
    intros _. split; [done|].
    rewrite (click_analyze_busy st Hw). simpl. by rewrite app_nil_r.
Qed.

(** A trace with a run in flight: the second and third clicks are
    refused, and one request has gone out. *)
Lemma analysis_runs_one_at_a_time_witness :
  let png := mkFile "image/png" [137; 80; 78; 71] in
  let w := run (Some "key")
             [SelectFile (Some png) "blob:image"; ClickAnalyze; ClickAnalyze;
              ReadSettles 0 ReadLoads; ClickAnalyze] in
  analyses w = [Requesting]
  ∧ effects w = [CreateObjectURL [137; 80; 78; 71] "blob:image";
                 ReadAsDataURL png; GenerateContent (Some "iVBORw==") "image/png"]
  ∧ loading (app w) = true
  ∧ step (Some "key") w ClickAnalyze = w.
Proof.
  intros png w.
  assert (Hruns : analyses w = [Requesting]) by reflexivity.
  destruct (analysis_runs_one_at_a_time (Some "key")
              [SelectFile (Some png) "blob:image"; ClickAnalyze; ClickAnalyze;
               ReadSettles 0 ReadLoads; ClickAnalyze]) as (_ & _ & H).
  fold w in H. destruct H as [Hl Hs]; [by rewrite Hruns|].
  split_and!; [exact Hruns|reflexivity|exact Hl|exact Hs].
Defined.

(** * Further properties *)

(** ** Bytes, samples and the container *)

Section Samples.
Import DataView.

Local Ltac divmod_lia :=
  unfold Base64.is_digit, is_byte, int16, to_int16 in *;
  Z.to_euclidean_division_equations; lia.

(** Induction four digits at a time. *)
Lemma list_ind4 {A} (P : list A → Prop) :
  P [] → (∀ a, P [a]) → (∀ a b, P [a; b]) → (∀ a b c, P [a; b; c]) →
  (∀ a b c d l, P l → P (a :: b :: c :: d :: l)) → ∀ l, P l.
Proof.
  intros H0 H1 H2 H3 H4 l.
  assert (H : P l ∧ (∀ a, P (a :: l)) ∧ (∀ a b, P (a :: b :: l))
              ∧ (∀ a b c, P (a :: b :: c :: l))).
  { induction l as [|x l (IH0 & IH1 & IH2 & IH3)]; [by auto|].
    split_and!; [apply IH1|intros a; apply IH2|intros a b; apply IH3|].
    intros a b c. by apply H4. }
  apply H.
Qed.

Lemma index_of_bound c l d :
  Base64.index_of c l = Some d → 0 ≤ d < Z.of_nat (length l).
Proof.
  revert d; induction l as [|c' l IH]; intros d; simpl; [done|].
  destruct (Ascii.eqb c c'); [intros; simplify_eq; lia|].
  destruct (Base64.index_of c l) as [d'|]; simpl; [|done].
  intros; simplify_eq. specialize (IH d' eq_refl). lia.
Qed.

Lemma digits_range data ds :
  Base64.digits data = Some ds → Forall Base64.is_digit ds.
Proof.
  revert ds; induction data as [|c data IH]; intros ds; simpl.
  - intros; simplify_eq. constructor.
  - destruct (Base64.char_digit c) as [d|] eqn:Hd; simpl; [|done].
    destruct (Base64.digits data) as [ds'|]; simpl; [|done].
    intros; simplify_eq. constructor; [|by apply IH].
    apply index_of_bound in Hd. exact Hd.
Qed.

Lemma octets_bytes ds :
  Forall Base64.is_digit ds → Forall is_byte (Base64.octets ds).
Proof.
  induction ds as [|a|a b|a b c|a b c d l IH] using list_ind4; intros Hds;
    cbn [Base64.octets]; try by constructor.
  - inversion_clear Hds as [|?? Ha Hds']. inversion_clear Hds' as [|?? Hb _].
    repeat apply Forall_cons_2; try apply Forall_nil_2; divmod_lia.
  - inversion_clear Hds as [|?? Ha Hds']. inversion_clear Hds' as [|?? Hb Hds''].
    inversion_clear Hds'' as [|?? Hc _].
    repeat apply Forall_cons_2; try apply Forall_nil_2; divmod_lia.
  - inversion_clear Hds as [|?? Ha Hds']. inversion_clear Hds' as [|?? Hb Hds''].
    inversion_clear Hds'' as [|?? Hc Hds']. inversion_clear Hds' as [|?? Hd Hl].
    repeat (apply Forall_cons_2; [divmod_lia|]). by apply IH.
Qed.

Lemma decode_bytes data bs : Base64.decode data = Some bs → Forall is_byte bs.
Proof.
  unfold Base64.decode. case_match; [done|].
  destruct (Base64.digits _) as [ds|] eqn:Hds; simpl; [|done].
  intros; simplify_eq. by apply octets_bytes, (digits_range _ _ Hds).
Qed.

(** Two bytes and the 16-bit element they make. *)
Lemma le_bytes_to_int16 lo hi :
  is_byte lo → is_byte hi → le_bytes 2 (to_int16 (lo + 256 * hi)) = [lo; hi].
Proof.
  intros Hlo Hhi. cbn [le_bytes]. unfold to_int16.
  destruct (Z.ltb_spec (lo + 256 * hi) 32768); repeat f_equal; divmod_lia.
Qed.

Lemma to_int16_range lo hi :
  is_byte lo → is_byte hi → int16 (to_int16 (lo + 256 * hi)).
Proof.
  intros Hlo Hhi. unfold to_int16, int16, is_byte in *.
  destruct (Z.ltb_spec (lo + 256 * hi) 32768); lia.
Qed.

Lemma int16_elements_spec (pcmData : list Z) :
  Forall is_byte pcmData → Nat.even (length pcmData) = true →
  Forall int16 (int16_elements pcmData)
  ∧ int16_elements pcmData ≫= le_bytes 2 = pcmData
  ∧ length (int16_elements pcmData) = (length pcmData `div` 2)%nat.
Proof.
  intros Hb He.
  assert (H : ∀ n (l : list Z), (length l ≤ n)%nat → Forall is_byte l →
              Nat.even (length l) = true →
              Forall int16 (int16_elements l)
              ∧ int16_elements l ≫= le_bytes 2 = l
              ∧ length (int16_elements l) = (length l `div` 2)%nat).
  { clear. induction n as [|n IH]; intros l Hn Hl He.
    - destruct l; [by repeat split; try constructor|simpl in Hn; lia].
    - destruct l as [|lo [|hi l]]; [by repeat split; try constructor|done|].
      inversion_clear Hl as [|?? Hlo Hl']. inversion_clear Hl' as [|?? Hhi Hl].
      destruct (IH l) as (IH1 & IH2 & IH3);
        [simpl in Hn; lia|done|done|].
      cbn [int16_elements]. split_and!.
      + constructor; [by apply to_int16_range|done].
      + rewrite bind_cons, le_bytes_to_int16, IH2 by done. done.
      + cbn [length]. rewrite IH3.
        change (S (S (length l))) with (2 + length l)%nat.
        replace (2 + length l)%nat with (length l + 1 * 2)%nat by lia.
        rewrite Nat.div_add by lia. lia. }
  by apply (H (length pcmData)).
Qed.

Lemma samples_round_trip (pcm16 : list Z) :
  Forall int16 pcm16 →
  int16_elements (pcm16 ≫= le_bytes 2) = pcm16
  ∧ Nat.even (length (pcm16 ≫= le_bytes 2)) = true.
Proof.
  induction 1 as [|s l Hs _ [IH1 IH2]]; [done|].
  rewrite bind_cons.
  change (le_bytes 2 s) with [s `mod` 256; (s `div` 256) `mod` 256].
  cbn [List.app int16_elements length].
  split.
  - rewrite IH1. f_equal.
    replace (s `mod` 256 + 256 * ((s `div` 256) `mod` 256))
      with (s `mod` 65536)
      by divmod_lia.
    by apply to_int16_wrap.
  - exact IH2.
Qed.

End Samples.

Lemma buffer_is_decode (base64 : string) :
  base64ToArrayBuffer base64 = Base64.decode base64.
Proof.
  unfold base64ToArrayBuffer, atob.
  destruct (Base64.decode base64) as [bs|] eqn:Hd; [|done]. simpl. f_equal.
  apply copy_binary_string. by apply (decode_bytes base64).
Qed.

(** X1. [base64ToArrayBuffer] is the forgiving-base64 decoder, byte for
    byte: it throws on exactly the texts [atob] rejects, and on every other
    text its buffer holds the decoded bytes, in order, each between 0 and
    255 (the loop of lines 22-24 loses and adds nothing). *)
Theorem base64ToArrayBuffer_is_decode (base64 : string) :
  base64ToArrayBuffer base64 = Base64.decode base64
  ∧ (atob base64 = None ↔ base64ToArrayBuffer base64 = None)
  ∧ ∀ bytes, base64ToArrayBuffer base64 = Some bytes → Forall is_byte bytes.
Proof.
  pose proof (buffer_is_decode base64) as H.
  split_and!; [exact H| |].
  - rewrite H. unfold atob. by destruct (Base64.decode base64).
  - intros bytes. rewrite H. apply decode_bytes.
Qed.

(** X2. The body of the container is a faithful copy of the samples: an
    [Int16Array] over the bytes after the header of [pcmToWav(S, R)] has
    the elements of [S], whatever the rate. *)
Theorem wav_body_reads_back (pcmData : list Z) (sampleRate : Z) :
  Forall int16 pcmData →
  ∃ bytes, pcmToWav pcmData sampleRate = Some (mkBlob bytes "audio/wav")
           ∧ Int16Array (drop 44 bytes) = inr pcmData.
Proof.
  intros Hs. eexists. split; [apply pcmToWav_bytes|].
  pose proof (drop_app_length (wav_header (length pcmData) sampleRate)
                (pcmData ≫= DataView.le_bytes 2)) as Hdrop.
  rewrite length_wav_header in Hdrop. rewrite Hdrop.
  destruct (samples_round_trip pcmData Hs) as [Hrt Heven].
  unfold Int16Array. by rewrite Heven, Hrt.
Qed.

Lemma wav_body_reads_back_witness :
  ∃ bytes, pcmToWav [0; 1000; -1000; 32767; -32768] 24000
           = Some (mkBlob bytes "audio/wav")
           ∧ Int16Array (drop 44 bytes) = inr [0; 1000; -1000; 32767; -32768].
Proof.
  apply (wav_body_reads_back [0; 1000; -1000; 32767; -32768] 24000).
  repeat constructor; unfold int16; lia.
Defined.

(** X3. Lines 316-318 wrap the decoded audio without touching it: for a
    buffer of an even number of bytes, the [Int16Array] view succeeds and
    the container [pcmToWav] builds from it is the 44-byte header followed
    by those very bytes. *)
Theorem pcm_bytes_pass_through (pcmData : list Z) (sampleRate : Z) :
  Forall is_byte pcmData → Nat.even (length pcmData) = true →
  ∃ pcm16, Int16Array pcmData = inr pcm16
           ∧ length pcm16 = (length pcmData `div` 2)%nat
           ∧ pcmToWav pcm16 sampleRate
             = Some (mkBlob (wav_header (length pcm16) sampleRate ++ pcmData)
                       "audio/wav").
Proof.
  intros Hb He. exists (int16_elements pcmData).
  destruct (int16_elements_spec pcmData Hb He) as (_ & Hrt & Hlen).
  split_and!; [unfold Int16Array; by rewrite He|exact Hlen|].
  by rewrite pcmToWav_bytes, Hrt.
Qed.

Lemma pcm_bytes_pass_through_witness :
  ∃ pcm16, Int16Array [0; 0; 232; 3; 24; 252] = inr pcm16
           ∧ length pcm16 = 3%nat
           ∧ pcmToWav pcm16 24000
             = Some (mkBlob (wav_header 3 24000 ++ [0; 0; 232; 3; 24; 252])
                       "audio/wav").
Proof.
  destruct (pcm_bytes_pass_through [0; 0; 232; 3; 24; 252] 24000)
    as (pcm16 & H1 & H2 & H3);
    [repeat constructor; unfold is_byte; lia|reflexivity|].
  exists pcm16. rewrite H2 in H3. done.
Defined.

(** ** The sample rate of a media type *)

Section Rate.





End Rate.



(** ** The speech run, case by case *)

Section SpeechRun.




(** A run past the guard and the key check, by what its exchange leads
    to. *)
Lemma speech_run_cases key x text st :
  truthy text = true → isSpeaking st = false → key ≠ "" →
  handleTextToSpeech (Some key) x text st
  = let st1 := setIsSpeaking true st in
    let request := Fetch (apiUrl key) ("Say cheerfully: " +:+ ToString text) in
    match speech_outcome x with
    | inl e => (speech_catch e st1, [request])
    | inr wavBlob =>
        let started :=
          [request; CreateObjectURL (blob_bytes wavBlob) (minted_url x);
           Play (minted_url x)] in
        match playback_result x with
        | PlayRejected e =>
            (showModal ("Failed to play audio: " +:+ message e) st1, started)
        | PlayedToEnd =>
            (setIsSpeaking false st1,
             started ++ [RevokeObjectURL (minted_url x)])
        | StillPlaying => (st1, started)
        end
    end.
Proof.
  intros Htext Hfree Hkey. unfold handleTextToSpeech, speak_begin, speech_outcome.
  rewrite Htext, Hfree. destruct (String.eqb_spec key "") as [?|_]; [done|].
  cbn [orb negb speak_steps speak_step].
  destruct (fetch_result x) as [resp|e]; cbn [speak_fetch_settled]; [|done].
  destruct (ok resp); cbn [speak_steps speak_step].
  - destruct (json_result x) as [result|e]; cbn [speak_json_settled]; [|done].
    destruct (build_audio result) as [e|wavBlob]; [done|].
    cbn [speak_steps speak_step].
    destruct (playback_result x); reflexivity.
  - destruct (error_text_result x); reflexivity.
Qed.

Lemma speech_run_idle apiKey x text st :
  ¬ speech_starts apiKey text st →
  (handleTextToSpeech apiKey x text st).2 = [].
Proof.
  intros Hno. unfold handleTextToSpeech, speak_begin.
  destruct (truthy text) eqn:Htext; [|done].
  destruct (isSpeaking st) eqn:Hfree; [done|]. simpl.
  destruct apiKey as [key|]; [|done].
  destruct (String.eqb_spec key "") as [?|Hkey]; [done|].
  destruct Hno. split_and!; [done..|]. by exists key.
Qed.

Lemma speech_starts_dec apiKey text st :
  speech_starts apiKey text st ∨ ¬ speech_starts apiKey text st.
Proof.
  unfold speech_starts.
  destruct (truthy text); [|right; by intros (? & _)].
  destruct (isSpeaking st); [right; by intros (_ & ? & _)|].
  destruct apiKey as [key|]; [|right; by intros (_ & _ & ? & ? & _)].
  destruct (decide (key = "")) as [->|Hkey].
  - right. intros (_ & _ & ? & ? & ?). by simplify_eq.
  - left. split_and!; [done..|]. by exists key.
Qed.

End SpeechRun.



(** X6. Whatever the exchange answers, a run of [handleTextToSpeech] does
    one of four things to the outside world: nothing; the request alone;
    the request, one URL minted for a container, and its playback; or
    these and the revocation of that same URL. It never sends a second
    request and never plays or revokes a URL it did not mint. *)
Theorem speech_run_effects (apiKey : option string) (x : speech_exchange)
    (text : js_value) (st : AppState) :
  let fx := (handleTextToSpeech apiKey x text st).2 in
  fx = []
  ∨ ∃ key, apiKey = Some key
      ∧ let request :=
          Fetch (apiUrl key) ("Say cheerfully: " +:+ ToString text) in
        fx = [request]
        ∨ ∃ wav,
            fx = [request; CreateObjectURL wav (minted_url x);
                  Play (minted_url x)]
            ∨ fx = [request; CreateObjectURL wav (minted_url x);
                    Play (minted_url x); RevokeObjectURL (minted_url x)].
Proof.
  intros fx. subst fx.
  destruct (speech_starts_dec apiKey text st)
    as [(Htext & Hfree & key & -> & Hkey)|Hno];
    [|left; by apply speech_run_idle].
  right. exists key. split; [done|].
  rewrite (speech_run_cases key x text st) by done. cbv zeta.
  destruct (speech_outcome x) as [e|wavBlob]; [by left|].
  right. exists (blob_bytes wavBlob).
  destruct (playback_result x); simpl; auto.
Qed.

(** X7. After a run that began with [isSpeaking] off, the flag is set
    exactly when the last thing the run did was to start a playback: it is
    off after every refusal and every failure before the playback and
    after a playback that ended, and it stays on while the playback goes
    on and also after [play()] was rejected. *)
Theorem flag_set_iff_playback_open (apiKey : option string)
    (x : speech_exchange) (text : js_value) (st : AppState) :
  isSpeaking st = false →
  let '(st', fx) := handleTextToSpeech apiKey x text st in
  isSpeaking st' = true ↔ last fx = Some (Play (minted_url x)).
Proof.
  intros Hfree.
  destruct (truthy text) eqn:Htext; last first.
  { unfold handleTextToSpeech, speak_begin. rewrite Htext. simpl.
    by rewrite Hfree. }
  destruct apiKey as [key|]; last first.
  { unfold handleTextToSpeech, speak_begin. rewrite Htext, Hfree. simpl.
    by destruct st. }
  destruct (decide (key = "")) as [->|Hkey].
  { unfold handleTextToSpeech, speak_begin. rewrite Htext, Hfree. simpl.
    by destruct st. }
  rewrite (speech_run_cases key x text st) by done. cbv zeta.
  destruct (speech_outcome x) as [e|wavBlob]; [by destruct st|].
  destruct (playback_result x); by destruct st.
Qed.

Lemma flag_set_iff_playback_open_witness :
  let x := mkSpeech (Fulfilled (mkResponse true 200)) (Fulfilled "")
             (Fulfilled (audio_reply "AAA=" "audio/L16;codec=pcm;rate=24000"))
             "blob:audio" StillPlaying in
  let r :=
    handleTextToSpeech (Some "key") x (JStr "A fox in a field") initialState in
  isSpeaking r.1 = true ∧ last r.2 = Some (Play "blob:audio").
Proof.
  intros x r.
  pose proof (flag_set_iff_playback_open (Some "key") x
                (JStr "A fox in a field") initialState eq_refl) as H.
  assert (Hl : last r.2 = Some (Play "blob:audio")) by reflexivity.
  fold r in H. destruct r as [st' fx]. simpl in *.
  split; [by apply H|exact Hl].
Defined.



(** ** Invariants of the event loop *)

Section Frames.

(** What lines 242-255 leave alone. *)
Lemma store_reply_frame reply st :
  let st' := (store_reply reply st).1 in
  imageFile st' = imageFile st ∧ imageUrl st' = imageUrl st
  ∧ isSpeaking st' = isSpeaking st ∧ loading st' = loading st
  ∧ isModalOpen st' = isModalOpen st ∧ modalContent st' = modalContent st
  ∧ error st' = error st.
Proof.
  destruct (nullish reply) eqn:Hn.
  - rewrite store_reply_throws by (destruct reply; auto; done). done.
  - rewrite store_reply_defined by (by intros ->).
    unfold stored. destruct (verdicts_all_pass reply); by destruct st.
Qed.

Lemma analyze_reply_settled_frame r st :
  let st' := analyze_reply_settled r st in
  imageFile st' = imageFile st ∧ imageUrl st' = imageUrl st
  ∧ isSpeaking st' = isSpeaking st
  ∧ (modalContent st' = modalContent st
     ∨ ∃ e, modalContent st' = analysis_error e).
Proof.
  unfold analyze_reply_settled.
  destruct r as [[e|reply]|e]; [by destruct st; eauto 10| |by destruct st; eauto 10].
  pose proof (store_reply_frame reply st) as (H1 & H2 & H3 & _ & _ & H6 & _).
  destruct (store_reply reply st) as [st1 [e|[]]]; simpl in *.
  - split_and!; [by destruct st1..|]. right. exists e. by destruct st1.
  - split_and!; [by destruct st1..|]. left. by destruct st1.
Qed.

Lemma analyze_read_settled_frame file r st :
  let st' := (analyze_read_settled file r st).1.1 in
  imageFile st' = imageFile st ∧ imageUrl st' = imageUrl st
  ∧ isSpeaking st' = isSpeaking st
  ∧ (modalContent st' = modalContent st
     ∨ ∃ e, modalContent st' = analysis_error e).
Proof. destruct r as [b|e]; simpl; [by eauto 10|]. destruct st; eauto 10. Qed.

Lemma click_analyze_frame st :
  let st' := (click_analyze st).1.1 in
  imageFile st' = imageFile st ∧ imageUrl st' = imageUrl st
  ∧ isSpeaking st' = isSpeaking st ∧ modalContent st' = modalContent st.
Proof.
  unfold click_analyze, analyze_disabled, analyze_begin.
  destruct (loading st); [done|].
  destruct (imageFile st) as [file|] eqn:Hfile; simpl; [|done].
  by destruct st.
Qed.

Lemma click_analyze_started st p :
  (click_analyze st).2 = Some p →
  ∃ file, imageFile st = Some file ∧ p = Reading file
          ∧ (click_analyze st).1.2 = [ReadAsDataURL file].
Proof.
  unfold click_analyze, analyze_disabled, analyze_begin.
  destruct (loading st); [done|].
  destruct (imageFile st) as [file|] eqn:Hfile; simpl; [|done].
  intros; simplify_eq. eauto.
Qed.

Lemma click_analyze_idle_effects st :
  (click_analyze st).2 = None → (click_analyze st).1.2 = [].
Proof.
  unfold click_analyze, analyze_disabled, analyze_begin.
  destruct (loading st); [done|].
  by destruct (imageFile st) as [file|] eqn:Hfile.
Qed.

Lemma speak_begin_frame apiKey text st :
  let st' := (speak_begin apiKey text st).1.1 in
  imageFile st' = imageFile st ∧ imageUrl st' = imageUrl st
  ∧ (modalContent st' = modalContent st
     ∨ modalContent st' = "API key is not configured.").
Proof.
  unfold speak_begin. destruct (negb (truthy text) || isSpeaking st); [by auto|].
  destruct apiKey as [key|]; [destruct (String.eqb key "")|];
    destruct st; simpl; auto.
Qed.

Lemma click_speak_frame apiKey b st :
  let st' := (click_speak apiKey b st).1.1 in
  imageFile st' = imageFile st ∧ imageUrl st' = imageUrl st
  ∧ (modalContent st' = modalContent st
     ∨ modalContent st' = "API key is not configured.").
Proof.
  unfold click_speak.
  destruct (metadata_visible st && negb (isSpeaking st)); [|by auto].
  apply speak_begin_frame.
Qed.

Lemma speak_step_frame x p st :
  let st' := (speak_step x p st).1.1 in
  imageFile st' = imageFile st ∧ imageUrl st' = imageUrl st
  ∧ (modalContent st' = modalContent st
     ∨ (∃ e, modalContent st' = speech_error e)
     ∨ ∃ e, modalContent st' = "Failed to play audio: " +:+ message e).
Proof.
  destruct p as [|status| |audioUrl]; simpl.
  - destruct (fetch_result x) as [resp|e]; simpl;
      [destruct (ok resp); by auto|destruct st; eauto 10].
  - destruct (error_text_result x); simpl; destruct st; eauto 10.
  - destruct (json_result x) as [result|e]; simpl; [|destruct st; eauto 10].
    destruct (build_audio result); simpl; destruct st; eauto 10.
  - destruct (playback_result x); simpl; destruct st; eauto 10.
Qed.

(** The speech handlers touch no analysis, and the other way round. *)
Lemma speech_effects_frame apiKey b x p st :
  Forall (λ e, match e with
               | ReadAsDataURL _ | GenerateContent _ _ => False
               | _ => True
               end)
    ((click_speak apiKey b st).1.2 ++ (speak_step x p st).1.2).
Proof.
  apply Forall_app_2.
  - unfold click_speak, speak_begin.
    destruct (metadata_visible st && negb (isSpeaking st)); [|constructor].
    destruct (negb (truthy _) || isSpeaking st); [constructor|].
    destruct apiKey as [key|]; [destruct (String.eqb key "")|];
      repeat constructor.
  - destruct p as [|status| |audioUrl]; simpl.
    + destruct (fetch_result x) as [resp|e]; simpl;
        [destruct (ok resp)|]; constructor.
    + destruct (error_text_result x); constructor.
    + destruct (json_result x) as [result|e]; simpl; [|constructor].
      destruct (build_audio result); repeat constructor.
    + destruct (playback_result x); repeat constructor.
Qed.

End Frames.

Section SpeechExclusion.

Lemma click_speak_busy apiKey b st :
  isSpeaking st = true → click_speak apiKey b st = (st, [], None).
Proof.
  intros H. unfold click_speak. rewrite H. by rewrite andb_false_r.
Qed.

Lemma click_speak_started apiKey b st p :
  (click_speak apiKey b st).2 = Some p →
  isSpeaking (click_speak apiKey b st).1.1 = true.
Proof.
  unfold click_speak, speak_begin.
  destruct (metadata_visible st && negb (isSpeaking st)); [|done].
  destruct (negb (truthy _) || isSpeaking st); [done|].
  destruct apiKey as [key|]; [destruct (String.eqb key "")|]; done.
Qed.

Lemma speak_step_goes_on x p st p' :
  (speak_step x p st).2 = Some p' →
  isSpeaking (speak_step x p st).1.1 = isSpeaking st.
Proof.
  destruct p as [|status| |audioUrl]; simpl.
  - destruct (fetch_result x) as [resp|e]; simpl; [|done].
    by destruct (ok resp).
  - by destruct (error_text_result x).
  - destruct (json_result x) as [result|e]; simpl; [|done].
    by destruct (build_audio result).
  - by destruct (playback_result x).
Qed.

Lemma isSpeaking_outside_speech st file url r o :
  isSpeaking (handleFileSelect file url st).1 = isSpeaking st
  ∧ isSpeaking (click_clear st).1 = isSpeaking st
  ∧ isSpeaking (closeModal st) = isSpeaking st
  ∧ (∀ m, isSpeaking (showModal m st) = isSpeaking st)
  ∧ isSpeaking (click_analyze st).1.1 = isSpeaking st
  ∧ (∀ f, isSpeaking (analyze_read_settled f o st).1.1 = isSpeaking st)
  ∧ isSpeaking (analyze_reply_settled r st) = isSpeaking st.
Proof.
  split_and!.
  - unfold handleFileSelect. destruct file as [f|]; [|done].
    destruct (String.prefix "image/" (file_type f)); by destruct st.
  - unfold click_clear, handleClear.
    destruct (imageUrl st) as [u|] eqn:Hurl; [|done].
    destruct (String.eqb u ""); [done|]. by destruct st.
  - by destruct st.
  - intros m. by destruct st.
  - by destruct (click_analyze_frame st) as (_ & _ & ? & _).
  - intros f. by destruct (analyze_read_settled_frame f o st) as (_ & _ & ? & _).
  - by destruct (analyze_reply_settled_frame r st) as (_ & _ & ? & _).
Qed.

Lemma step_speech_exclusive apiKey w ev :
  speech_exclusive w → speech_exclusive (step apiKey w ev).
Proof.
  unfold speech_exclusive. intros Hw.
  destruct ev as [file url| | |written| |i o|i r|b|i x]; simpl.
  - destruct (isSpeaking_outside_speech (app w) file url (Rejected (Thrown ""))
                (Fulfilled None)) as (H & _).
    destruct (handleFileSelect file url (app w)) as [st fx]. simpl in *.
    by rewrite H.
  - destruct (isSpeaking_outside_speech (app w) None "" (Rejected (Thrown ""))
                (Fulfilled None)) as (_ & H & _).
    destruct (click_clear (app w)) as [st fx]. simpl in *. by rewrite H.
  - by destruct (app w).
  - by destruct (app w).
  - destruct (isSpeaking_outside_speech (app w) None "" (Rejected (Thrown ""))
                (Fulfilled None)) as (_ & _ & _ & _ & H & _).
    destruct (click_analyze (app w)) as [[st fx] p]. simpl in *. by rewrite H.
  - destruct (analyses w !! i) as [[file|]|]; [|done..].
    destruct (isSpeaking_outside_speech (app w) None "" (Rejected (Thrown ""))
                (fileToBase64 file o)) as (_ & _ & _ & _ & _ & H & _).
    specialize (H file).
    destruct (analyze_read_settled file _ (app w)) as [[st fx] p].
    simpl in *. by rewrite H.
  - destruct (analyses w !! i) as [[file|]|]; [done| |done]. simpl.
    destruct (isSpeaking_outside_speech (app w) None "" r (Fulfilled None))
      as (_ & _ & _ & _ & _ & _ & H).
    by rewrite H.
  - destruct (speeches w) as [|p [|p' runs]] eqn:Hruns; [| |done].
    + pose proof (click_speak_started apiKey b (app w)) as Hs.
      destruct (click_speak apiKey b (app w)) as [[st fx] [p|]]; simpl in *;
        [by apply (Hs p)|done].
    + rewrite (click_speak_busy apiKey b (app w) Hw). simpl. rewrite ?Hruns. done.
  - destruct (speeches w) as [|p [|p' runs]] eqn:Hruns; [| |done].
    + rewrite lookup_nil. simpl. rewrite ?Hruns. done.
    + destruct i as [|i]; simpl; [|rewrite ?Hruns; done].
      pose proof (speak_step_goes_on x p (app w)) as Hs.
      destruct (speak_step x p (app w)) as [[st fx] [p''|]]; simpl in *;
        [|done].
      by rewrite (Hs p'') .
Qed.

Lemma run_speech_exclusive apiKey evs : speech_exclusive (run apiKey evs).
Proof.
  unfold run. assert (H : speech_exclusive initialWorld) by done.
  revert H. generalize initialWorld.
  induction evs as [|ev evs IH]; intros w Hw; [done|].
  simpl. apply IH. by apply step_speech_exclusive.
Qed.

End SpeechExclusion.

(** X9. Whatever the events, at most one speech run waits at any time;
    while one waits, [isSpeaking] is set and a click on either speech
    button changes nothing, so that no second speech request can go out
    before the first run is over. *)
Theorem speech_runs_one_at_a_time (apiKey : option string)
    (evs : list event) :
  let w := run apiKey evs in
  (length (speeches w) ≤ 1)%nat
  ∧ (speeches w ≠ [] →
     isSpeaking (app w) = true
     ∧ ∀ b, step apiKey w (ClickSpeak b) = w).
Proof.
  intros w. pose proof (run_speech_exclusive apiKey evs) as Hw. fold w in Hw.
  unfold speech_exclusive in Hw. destruct w as [st an runs fx]. simpl in *.
  destruct runs as [|p [|p' runs]]; [| |done].
  - split; [simpl; lia|done].
  - split; [simpl; lia|]. intros _. split; [done|]. intros b.
    rewrite (click_speak_busy apiKey b st Hw). simpl. by rewrite app_nil_r.
Qed.

Section ImagesOnly.

Lemma speech_effect_is_fine (fx : list effect) :
  Forall (λ e, match e with
               | ReadAsDataURL _ | GenerateContent _ _ => False
               | _ => True
               end) fx →
  Forall (λ e, match e with
               | ReadAsDataURL file => is_image file
               | GenerateContent _ mimeType =>
                   String.prefix "image/" mimeType = true
               | _ => True
               end) fx.
Proof. intros H. eapply Forall_impl; [exact H|]. by intros []. Qed.

Local Ltac unchanged :=
  simpl in *; rewrite ?app_nil_r;
  try match goal with H : imageUrl _ = _ |- _ => rewrite H end;
  split_and!; assumption.

Lemma step_images_only apiKey w ev : images_only w → images_only (step apiKey w ev).
Proof.
  unfold images_only. destruct w as [st an sp fx]. simpl.
  intros (Hpair & Himg & Hruns & Hfx).
  destruct ev as [file url| | |written| |i o|i r|b|i x]; simpl.
  - unfold handleFileSelect. destruct file as [f|]; [|unchanged].
    destruct (String.prefix "image/" (file_type f)) eqn:Hp; [|unchanged].
    simpl.
    split_and!.
    + destruct st; simpl; split; eauto.
    + intros file. destruct st; simpl. by intros [= <-].
    + done.
    + apply Forall_app_2; [done|]. by repeat constructor.
  - unfold click_clear.
    destruct (imageUrl st) as [u|] eqn:Hurl; [|unchanged].
    destruct (String.eqb u ""); [unchanged|].
    unfold handleClear. rewrite Hurl. simpl. split_and!.
    + destruct st; simpl. split; by intros [? ?].
    + intros file. by destruct st.
    + done.
    + apply Forall_app_2; [done|].
      destruct (imageFile st); [|constructor].
      destruct (negb (String.eqb u "")); by repeat constructor.
  - destruct st; unchanged.
  - destruct st; unchanged.
  - pose proof (click_analyze_frame st) as (H1 & H2 & _).
    pose proof (click_analyze_started st) as Hs.
    pose proof (click_analyze_idle_effects st) as Hi.
    destruct (click_analyze st) as [[st' fx'] [p|]]; simpl in *.
    + destruct (Hs p eq_refl) as (file & Hfile & -> & ->).
      rewrite H1, H2. split_and!; [done..| |].
      * apply Forall_app_2; [done|]. repeat constructor. by apply Himg.
      * apply Forall_app_2; [done|]. repeat constructor. by apply Himg.
    + rewrite (Hi eq_refl), H1, H2. unchanged.
  - destruct (an !! i) as [[file|]|] eqn:Hi; [|unchanged..].
    assert (Hfile : is_image file).
    { rewrite Forall_lookup in Hruns. by apply (Hruns i _ Hi). }
    destruct (fileToBase64 file o) as [base64Data|e]; simpl.
    + split_and!; [done..| |].
      * by apply Forall_insert.
      * apply Forall_app_2; [done|]. by repeat constructor.
    + rewrite app_nil_r. split_and!; [by destruct st..| |done].
      by apply Forall_delete.
  - destruct (an !! i) as [[file|]|] eqn:Hi; [unchanged| |unchanged]. simpl.
    destruct (analyze_reply_settled_frame r st) as (H1 & H2 & _).
    rewrite H1, H2. split_and!; [done..| |done]. by apply Forall_delete.
  - pose proof (click_speak_frame apiKey b st) as (H1 & H2 & _).
    pose proof (speech_effects_frame apiKey b
                  (mkSpeech (Rejected (Thrown "")) (Rejected (Thrown ""))
                     (Rejected (Thrown "")) "" StillPlaying) AwaitFetch st)
      as Hfx'%Forall_app%proj1%speech_effect_is_fine.
    destruct (click_speak apiKey b st) as [[st' fx'] p]. simpl in *.
    rewrite H1, H2. split_and!; [done..|]. by apply Forall_app_2.
  - destruct (sp !! i) as [p|] eqn:Hi; [|unchanged].
    pose proof (speak_step_frame x p st) as (H1 & H2 & _).
    pose proof (speech_effects_frame apiKey SpeakTitle x p st)
      as Hfx'%Forall_app%proj2%speech_effect_is_fine.
    destruct (speak_step x p st) as [[st' fx'] p']. simpl in *.
    rewrite H1, H2. split_and!; [done..|]. by apply Forall_app_2.
Qed.

Lemma run_images_only apiKey evs : images_only (run apiKey evs).
Proof.
  unfold run.
  assert (H : images_only initialWorld).
  { unfold images_only. simpl. split_and!; try done; by constructor. }
  revert H. generalize initialWorld.
  induction evs as [|ev evs IH]; intros w Hw; [done|].
  simpl. apply IH. by apply step_images_only.
Qed.

End ImagesOnly.

(** X10. Whatever the events, only image files get anywhere: the file of
    the state and the file of every waiting run have a media type that
    starts with "image/", the file and its URL are set and cleared
    together, and every file that was read and every request that was
    sent carried such a media type. *)
Theorem only_images_are_analysed (apiKey : option string) (evs : list event) :
  let w := run apiKey evs in
  (is_Some (imageFile (app w)) ↔ is_Some (imageUrl (app w)))
  ∧ (∀ file, imageFile (app w) = Some file → is_image file)
  ∧ (∀ file, Reading file ∈ analyses w → is_image file)
  ∧ (∀ file, ReadAsDataURL file ∈ effects w → is_image file)
  ∧ (∀ data mimeType, GenerateContent data mimeType ∈ effects w →
       String.prefix "image/" mimeType = true).
Proof.
  intros w. destruct (run_images_only apiKey evs) as (H1 & H2 & H3 & H4).
  fold w in H1, H2, H3, H4.
  pose proof (proj1 (Forall_forall _ _) H3) as H3'.
  pose proof (proj1 (Forall_forall _ _) H4) as H4'.
  split_and!; [done|done| | |].
  - intros file Hin. by apply (H3' _ Hin).
  - intros file Hin. by apply (H4' _ Hin).
  - intros data mimeType Hin. by apply (H4' _ Hin).
Qed.

Section Advisory.

Lemma modal_outside_runs st file url :
  modalContent (handleFileSelect file url st).1 = modalContent st
  ∧ modalContent (click_clear st).1 = modalContent st.
Proof.
  split.
  - unfold handleFileSelect. destruct file as [f|]; [|done].
    destruct (String.prefix "image/" (file_type f)); by destruct st.
  - unfold click_clear, handleClear.
    destruct (imageUrl st) as [u|] eqn:Hurl; [|done].
    destruct (String.eqb u ""); [done|]. by destruct st.
Qed.

Lemma messages_are_not_the_advisory e :
  analysis_error e ≠ no_image_advisory
  ∧ speech_error e ≠ no_image_advisory
  ∧ "Failed to play audio: " +:+ message e ≠ no_image_advisory.
Proof. split_and!; discriminate. Qed.

Lemma step_no_advisory apiKey w ev :
  modalContent (app w) ≠ no_image_advisory →
  modalContent (app (step apiKey w ev)) ≠ no_image_advisory.
Proof.
  intros Hw. destruct w as [st an sp fx]. simpl in Hw.
  destruct ev as [file url| | |written| |i o|i r|b|i x]; simpl.
  - destruct (modal_outside_runs st file url) as [H _].
    destruct (handleFileSelect file url st) as [st' fx']. simpl in *.
    by rewrite H.
  - destruct (modal_outside_runs st None "") as [_ H].
    destruct (click_clear st) as [st' fx']. simpl in *. by rewrite H.
  - by destruct st.
  - destruct written; by destruct st.
  - destruct (click_analyze_frame st) as (_ & _ & _ & H).
    destruct (click_analyze st) as [[st' fx'] p]. simpl in *. by rewrite H.
  - destruct (an !! i) as [[file|]|]; [|done..].
    destruct (analyze_read_settled_frame file (fileToBase64 file o) st)
      as (_ & _ & _ & H).
    destruct (analyze_read_settled file _ st) as [[st' fx'] p]. simpl in *.
    destruct H as [->|[e ->]]; [done|].
    apply messages_are_not_the_advisory.
  - destruct (an !! i) as [[file|]|]; [done| |done]. simpl.
    destruct (analyze_reply_settled_frame r st) as (_ & _ & _ & H).
    destruct H as [->|[e ->]]; [done|].
    apply messages_are_not_the_advisory.
  - destruct (click_speak_frame apiKey b st) as (_ & _ & H).
    destruct (click_speak apiKey b st) as [[st' fx'] p]. simpl in *.
    by destruct H as [->| ->].
  - destruct (sp !! i) as [p|]; [|done].
    destruct (speak_step_frame x p st) as (_ & _ & H).
    destruct (speak_step x p st) as [[st' fx'] p']. simpl in *.
    destruct H as [->|[[e ->]|[e ->]]]; [done|..];
      apply messages_are_not_the_advisory.
Qed.

Lemma run_no_advisory apiKey evs :
  modalContent (app (run apiKey evs)) ≠ no_image_advisory.
Proof.
  unfold run.
  assert (H : modalContent (app initialWorld) ≠ no_image_advisory) by done.
  revert H. generalize initialWorld.
  induction evs as [|ev evs IH]; intros w Hw; [done|].
  simpl. apply IH. by apply step_no_advisory.
Qed.

End Advisory.

(** X11. The pre-flight check of lines 154-157 is out of reach of the
    page: called without an image the handler would show "Please upload an
    image first." and do nothing else, but the button that calls it is
    disabled without an image, so whatever the events the modal never
    holds that message. *)
Theorem advisory_is_never_shown (apiKey : option string) (evs : list event) :
  (∀ x st, imageFile st = None →
     analyzeImageWithAI x st = (showModal no_image_advisory st, []))
  ∧ (∀ st, imageFile st = None → click_analyze st = (st, [], None))
  ∧ modalContent (app (run apiKey evs)) ≠ no_image_advisory.
Proof.
  split_and!.
  - intros x st H. by apply run_without_image.
  - intros st H. unfold click_analyze, analyze_disabled. rewrite H. simpl.
    by rewrite orb_true_r.
  - apply run_no_advisory.
Qed.

Lemma advisory_is_never_shown_witness :
  analyzeImageWithAI (mkExchange ReadLoads (Rejected (Thrown "offline")))
    initialState
  = (showModal no_image_advisory initialState, [])
  ∧ click_analyze initialState = (initialState, [], None)
  ∧ modalContent (app (run None [ClickAnalyze; ClickCloseModal; ClickAnalyze]))
    ≠ no_image_advisory.
Proof.
  destruct (advisory_is_never_shown None
              [ClickAnalyze; ClickCloseModal; ClickAnalyze]) as (H1 & H2 & H3).
  split_and!; [by apply H1|by apply H2|exact H3].
Defined.

(** ** The analysis run and the page *)

Section AnalysisRun.

Lemma reply_without_failure x reply :
  parsed_reply x = Some reply → nullish reply = false → failure x = None.
Proof.
  unfold parsed_reply, failure.
  destruct x as [[|e1] r]; simpl; [|done].
  destruct r as [[e2|reply']|e2]; simpl; try done.
  intros ? Hn; simplify_eq. by destruct reply.
Qed.

Lemma failure_is_nullish x reply :
  parsed_reply x = Some reply → failure x = None → nullish reply = false.
Proof.
  unfold parsed_reply, failure.
  destruct x as [[|e1] r]; simpl; [|done].
  destruct r as [[e2|reply']|e2]; simpl; try done.
  intros ?; simplify_eq. by destruct reply.
Qed.



End AnalysisRun.

(** X12. A run that parsed a reply other than [null] stores the four
    verdicts and the four explanations of the reply as they are, whatever
    the verdicts say, records no error, switches [loading] off and leaves
    the modal alone. *)
Theorem verdicts_are_stored (x : analysis_exchange) (st : AppState)
    (file : File) (reply : js_value) :
  imageFile st = Some file →
  parsed_reply x = Some reply →
  nullish reply = false →
  let st' := (analyzeImageWithAI x st).1 in
  copyrightStatus st' = get_optional reply "status"
  ∧ copyrightDescription st' = get_optional reply "copyrightDescription"
  ∧ zedgeViolationStatus st' = get_optional reply "zedgeViolationStatus"
  ∧ zedgeViolationDescription st'
    = get_optional reply "zedgeViolationDescription"
  ∧ womenPolicyStatus st' = get_optional reply "womenPolicyStatus"
  ∧ womenPolicyDescription st' = get_optional reply "womenPolicyDescription"
  ∧ kidsViolationStatus st' = get_optional reply "kidsViolationStatus"
  ∧ kidsViolationDescription st'
    = get_optional reply "kidsViolationDescription"
  ∧ error st' = None ∧ loading st' = false
  ∧ isModalOpen st' = isModalOpen st ∧ modalContent st' = modalContent st.
Proof.
  intros Hfile Hreply Hn st'. subst st'.
  rewrite (run_stores x st file reply);
    [|done|by apply (reply_without_failure x reply)|done].
  unfold stored. destruct (verdicts_all_pass reply); by destruct st.
Qed.

Lemma verdicts_are_stored_witness :
  let reply := JObj [("status", JStr "found");
                     ("copyrightDescription", JStr "A watermark is visible.");
                     ("zedgeViolationStatus", JStr "pass");
                     ("kidsViolationStatus", JNum "3")] in
  let st := setImageFile (Some (mkFile "image/png" [1; 2; 3])) initialState in
  let st' :=
    (analyzeImageWithAI (mkExchange ReadLoads (Fulfilled (Parsed reply))) st).1 in
  copyrightStatus st' = JStr "found"
  ∧ copyrightDescription st' = JStr "A watermark is visible."
  ∧ womenPolicyStatus st' = JUndefined
  ∧ kidsViolationStatus st' = JNum "3"
  ∧ error st' = None.
Proof.
  intros reply st st'.
  destruct (verdicts_are_stored
              (mkExchange ReadLoads (Fulfilled (Parsed reply))) st
              (mkFile "image/png" [1; 2; 3]) reply eq_refl eq_refl eq_refl)
    as (H1 & H2 & _ & _ & H5 & _ & H7 & _ & H9 & _).
  by split_and!.
Defined.



(** X14. A verdict and its card and icon. A status that is 'pass' or
    'found' gets a card and an icon that agree: the check icon, the
    pass card and "Pass", or the warning icon, the found card and
    "Violation". Any other truthy status, which the analysis stores
    unchecked, gets a "Violation" card with no icon and an idle policy
    icon; a falsy status gets no card. *)
Theorem card_and_icon (label : string) (status description : js_value) :
  match notification label status description with
  | None => truthy status = false
  | Some c =>
      card_text c = description
      ∧ ((status = JStr "pass"
          ∧ card_icon c = Some CheckIcon
          ∧ card_class c = "notification-card pass-card"
          ∧ card_heading c = label +:+ ": Pass"
          ∧ statusClass status = "status-pass")
         ∨ (status = JStr "found"
            ∧ card_icon c = Some WarningIcon
            ∧ card_class c = "notification-card found-card"
            ∧ card_heading c = label +:+ ": Violation"
            ∧ statusClass status = "status-found")
         ∨ (is_verdict status = false
            ∧ card_icon c = None
            ∧ card_class c = "notification-card found-card"
            ∧ card_heading c = label +:+ ": Violation"
            ∧ statusClass status = "status-idle"))
  end.
Proof.
  unfold notification, getStatusIcon, statusClass, is_verdict.
  destruct (truthy status) eqn:Ht; [|done]. simpl. split; [done|].
  destruct status as [| |b|n|s|l|o]; simpl in *; try by (right; right).
  destruct (String.eqb_spec s "pass") as [->|Hp]; [by left|].
  destruct (String.eqb_spec s "found") as [->|Hf]; [by right; left|].
  by right; right.
Qed.





(** X17. [loading] never stays behind: whatever the events, it is set
    exactly while a run of the analysis waits. *)
Theorem loading_iff_run_waits (apiKey : option string) (evs : list event) :
  let w := run apiKey evs in
  loading (app w) = true ↔ analyses w ≠ [].
Proof.
  intros w. pose proof (run_exclusive apiKey evs) as Hw. fold w in Hw.
  unfold exclusive in Hw. destruct (analyses w) as [|p [|p' runs]]; [| |done].
  - rewrite Hw. by split.
  - by split.
Qed.

(** X18. A click on Clear, with an image on the page, revokes the URL of
    the image and brings the hooks back to their first values: no file, no
    URL, nothing evaluated, no metadata, no error. It leaves [loading],
    [isSpeaking] and the modal alone. Without a URL the button is not on
    the page and nothing happens. *)
Theorem clear_resets (st : AppState) (file : File) (url : string) :
  imageFile st = Some file → imageUrl st = Some url → url ≠ "" →
  ∃ st', click_clear st = (st', [RevokeObjectURL url])
         ∧ imageFile st' = None ∧ imageUrl st' = None
         ∧ verdicts_unevaluated st' ∧ metadata_empty st' ∧ error st' = None
         ∧ loading st' = loading st ∧ isSpeaking st' = isSpeaking st
         ∧ isModalOpen st' = isModalOpen st
         ∧ modalContent st' = modalContent st.
Proof.
  intros Hfile Hurl Hne. unfold click_clear, handleClear.
  rewrite Hurl, Hfile. destruct (String.eqb_spec url "") as [?|_]; [done|].
  eexists. split; [reflexivity|]. by destruct st.
Qed.

Lemma clear_resets_witness :
  let png := mkFile "image/png" [137; 80; 78; 71] in
  let st :=
    setError (Some "An error occurred during AI analysis: offline")
      (setCopyrightStatus (JStr "found")
         (handleFileSelect (Some png) "blob:image" initialState).1) in
  ∃ st', click_clear st = (st', [RevokeObjectURL "blob:image"])
         ∧ st' = initialState.
Proof.
  intros png st.
  destruct (clear_resets st png "blob:image" eq_refl eq_refl)
    as (st' & Hrun & _); [done|].
  exists st'. split; [exact Hrun|].
  assert (H : (click_clear st).1 = initialState) by reflexivity.
  by rewrite Hrun in H.
Defined.

(** X19. Clear cancels nothing: when the image is cleared while a request
    waits, the reply that settles afterwards is stored all the same, so
    that the page shows the verdicts of an image that is gone. *)
Theorem reply_after_clear_is_stored (apiKey : option string) (w : world)
    (url : string) (reply : js_value) :
  analyses w = [Requesting] →
  imageUrl (app w) = Some url → url ≠ "" →
  nullish reply = false →
  let w' := step apiKey (step apiKey w ClickClear)
              (ReplySettles 0 (Fulfilled (Parsed reply))) in
  imageFile (app w') = None ∧ imageUrl (app w') = None
  ∧ copyrightStatus (app w') = get_optional reply "status"
  ∧ zedgeViolationStatus (app w') = get_optional reply "zedgeViolationStatus"
  ∧ womenPolicyStatus (app w') = get_optional reply "womenPolicyStatus"
  ∧ kidsViolationStatus (app w') = get_optional reply "kidsViolationStatus"
  ∧ analyses w' = [] ∧ loading (app w') = false.
Proof.
  intros Hruns Hurl Hne Hn. destruct w as [st an sp fx]. simpl in *. subst an.
  unfold click_clear, handleClear. rewrite Hurl.
  destruct (String.eqb_spec url "") as [?|_]; [done|]. simpl.
  unfold analyze_reply_settled.
  rewrite store_reply_defined by (by intros ->).
  unfold stored. destruct (verdicts_all_pass reply); by destruct st.
Qed.

Lemma reply_after_clear_is_stored_witness :
  let png := mkFile "image/png" [137; 80; 78; 71] in
  let w := run (Some "key")
             [SelectFile (Some png) "blob:image"; ClickAnalyze;
              ReadSettles 0 ReadLoads] in
  let w' := step (Some "key") (step (Some "key") w ClickClear)
              (ReplySettles 0
                 (Fulfilled (Parsed (JObj [("status", JStr "found")])))) in
  imageFile (app w') = None ∧ copyrightStatus (app w') = JStr "found".
Proof.
  intros png w w'.
  destruct (reply_after_clear_is_stored (Some "key") w "blob:image"
              (JObj [("status", JStr "found")]) eq_refl eq_refl)
    as (H1 & _ & H3 & _); [done|done|].
  split; [exact H1|exact H3].
Defined.

(** X20. An upload and a drop look at the first file only. If it is an
    image, the earlier results are cleared and the file is set with a
    fresh URL; [loading], [isSpeaking] and the modal stay. If there is no
    first file or it is no image, nothing changes at all, also when a
    later file of the list is an image. *)
Theorem first_file_is_selected (files : option (list File)) (url : string)
    (st : AppState) :
  handleDrop files url st = handleImageUpload files url st
  ∧ match first_file files with
    | Some file =>
        if String.prefix "image/" (file_type file) then
          ∃ st', handleDrop files url st
                 = (st', [CreateObjectURL (file_bytes file) url])
                 ∧ imageFile st' = Some file ∧ imageUrl st' = Some url
                 ∧ verdicts_unevaluated st' ∧ metadata_empty st'
                 ∧ error st' = None
                 ∧ loading st' = loading st ∧ isSpeaking st' = isSpeaking st
                 ∧ isModalOpen st' = isModalOpen st
                 ∧ modalContent st' = modalContent st
        else handleDrop files url st = (st, [])
    | None => handleDrop files url st = (st, [])
    end.
Proof.
  split; [done|]. unfold handleDrop, handleFileSelect.
  destruct (first_file files) as [file|]; [|done].
  destruct (String.prefix "image/" (file_type file)); [|done].
  eexists. split; [reflexivity|]. by destruct st.
Qed.

(** ** Speech and analysis side by side *)

Section Stuck.



Lemma speech_run_frame apiKey x text st :
  let st' := (handleTextToSpeech apiKey x text st).1 in
  st' = setModalContent (modalContent st')
          (setIsModalOpen (isModalOpen st')
             (setIsSpeaking (isSpeaking st') st)).
Proof.
  destruct (truthy text) eqn:Htext; last first.
  { unfold handleTextToSpeech, speak_begin. rewrite Htext. by destruct st. }
  destruct (isSpeaking st) eqn:Hfree.
  { unfold handleTextToSpeech, speak_begin. rewrite Htext, Hfree.
    destruct st; simpl in *; by subst. }
  destruct apiKey as [key|]; last first.
  { unfold handleTextToSpeech, speak_begin. rewrite Htext, Hfree.
    by destruct st. }
  destruct (decide (key = "")) as [->|Hkey].
  { unfold handleTextToSpeech, speak_begin. rewrite Htext, Hfree.
    by destruct st. }
  rewrite (speech_run_cases key x text st) by done. cbv zeta.
  destruct (speech_outcome x) as [e|wavBlob]; [by destruct st|].
  destruct (playback_result x); by destruct st.
Qed.

End Stuck.



(** X22. The two handlers keep to their own hooks. A run of
    [handleTextToSpeech] changes at most [isSpeaking] and the modal: the
    image, the verdicts, the metadata, the error and [loading] are as
    before. A run of [analyzeImageWithAI] leaves the image, its URL and
    [isSpeaking] as they are. *)
Theorem handlers_keep_apart (apiKey : option string) (x : speech_exchange)
    (y : analysis_exchange) (text : js_value) (st : AppState) :
  (let st' := (handleTextToSpeech apiKey x text st).1 in
   st' = setModalContent (modalContent st')
           (setIsModalOpen (isModalOpen st')
              (setIsSpeaking (isSpeaking st') st)))
  ∧ (let st' := (analyzeImageWithAI y st).1 in
     imageFile st' = imageFile st ∧ imageUrl st' = imageUrl st
     ∧ isSpeaking st' = isSpeaking st).
Proof.
  split; [apply speech_run_frame|]. cbv zeta.
  destruct (imageFile st) as [file|] eqn:Hfile.
  - destruct (failure_or_reply y) as [[e He]|[Hok [reply Hreply]]].
    + rewrite (run_fails y st file e) by done. by destruct st.
    + rewrite (run_stores y st file reply) by done.
      unfold stored. destruct (verdicts_all_pass reply);
        destruct st; simpl in *; by subst.
  - rewrite run_without_image by done. destruct st; simpl in *; by subst.
Qed.
